(** * A broadcast hub over websockets: model of [main.go] and its properties

    The program keeps a map of connected clients ([ClientManager.clients]),
    serialises register / unregister / broadcast events through one control
    loop ([ClientManager.start]) and runs two pumps per client ([Client.read]
    and [Client.write]).  The development below embeds

    - the envelope codec: [json.Marshal] on the [Message] struct, with the
      struct tags exactly as they are written in the source;
    - channels with the operations the hub performs on them (blocking send,
      [select] send with [default], [close]);
    - the three cases of the control loop and the helper [send];
    - the two pumps and [wsPage], as functions from the results of their
      socket calls to the list of actions they perform.

    Strings and byte slices are both [string] (a list of 8-bit characters),
    which is what a Go [string] and a [[]byte] hold.  Pointers [*Client] are
    addresses into a heap of [Client] structs. *)

From Stdlib Require Import Ascii String NArith.
From stdpp Require Import gmap strings list fin_maps.

#[local] Set Warnings "-clear-no-such-hyp".

Local Open Scope string_scope.
Local Open Scope list_scope.

(** ** Bytes and text *)

(** A Go [[]byte]; [string(message)] and [[]byte(s)] keep the bytes. *)
Definition bytes := string.

(** The double quote character, byte 0x22. *)
Definition dq : ascii := ascii_of_nat 34.

(** [quoted s] is [s] between two double quotes, without any escaping. *)
Definition quoted (s : string) : string := String dq (s +:+ String dq EmptyString).

Definition byte_of (a : ascii) : N := N_of_ascii a.

(** ** reflect.StructTag.Lookup

    The conventional tag format is a sequence of [key:"value"] pairs
    separated by spaces.  The scan gives up at the first pair that is not
    of that shape. *)
Module StructTag.

Fixpoint skip_spaces (tag : string) : string :=
  match tag with
  | String c rest => if Ascii.eqb c " " then skip_spaces rest else tag
  | EmptyString => tag
  end.

(** The characters that may appear in a key: above the space, and none of
    colon, quote, DEL. *)
Definition name_char (c : ascii) : bool :=
  (32 <? byte_of c)%N && negb (Ascii.eqb c ":") && negb (Ascii.eqb c dq)
  && negb (byte_of c =? 127)%N.

(** [scan_name tag] splits [tag] at the first character that cannot be
    part of a key. *)
Fixpoint scan_name (tag : string) : string * string :=
  match tag with
  | String c rest =>
      if name_char c then let '(n, r) := scan_name rest in (String c n, r)
      else (EmptyString, tag)
  | EmptyString => (EmptyString, EmptyString)
  end.

(** [scan_quoted s] reads the body of a quoted string up to its closing
    quote ([s] starts after the opening quote); a backslash protects the
    character that follows it.  [None] when the quote is never closed. *)
Fixpoint scan_quoted (esc : bool) (s : string) : option (string * string) :=
  match s with
  | EmptyString => None
  | String c rest =>
      if esc then
        '(v, r) ← scan_quoted false rest; Some (String c v, r)
      else if Ascii.eqb c dq then Some (EmptyString, rest)
      else '(v, r) ← scan_quoted (Ascii.eqb c "\") rest; Some (String c v, r)
  end.

(** [strconv.Unquote] of a double-quoted body, for bodies that hold no
    backslash and no newline (all the tags of this program); other bodies
    are reported as errors. *)
Definition unquote_body (v : string) : option string :=
  if forallb (fun c => negb (Ascii.eqb c "\") && negb (byte_of c =? 10)%N)
       (list_ascii_of_string v)
  then Some v else None.

Fixpoint lookup_loop (fuel : nat) (tag key : string) : option string :=
  match fuel with
  | O => None
  | S fuel =>
      let tag := skip_spaces tag in
      match tag with
      | EmptyString => None
      | _ =>
          let '(name, rest) := scan_name tag in
          match name, rest with
          | String _ _, String colon (String q body) =>
              if Ascii.eqb colon ":" && Ascii.eqb q dq then
                match scan_quoted false body with
                | None => None
                | Some (v, tag') =>
                    if String.eqb key name then unquote_body v
                    else lookup_loop fuel tag' key
                end
              else None
          | _, _ => None
          end
      end
  end.

(** [tag.Lookup(key)]; every round of the loop consumes at least one
    character, so the length of the tag bounds the number of rounds. *)
Definition Lookup (tag key : string) : option string :=
  lookup_loop (S (String.length tag)) tag key.

(** [tag.Get(key)] *)
Definition Get (tag key : string) : string := default EmptyString (Lookup tag key).

End StructTag.

(** ** encoding/json on a struct of strings *)
Module json.

(** [parseTag]: the name before the first comma, the options after it. *)
Fixpoint parseTag (tag : string) : string * string :=
  match tag with
  | EmptyString => (EmptyString, EmptyString)
  | String c rest =>
      if Ascii.eqb c "," then (EmptyString, rest)
      else let '(n, o) := parseTag rest in (String c n, o)
  end.

(** [tagOptions.Contains]: the options are a comma-separated list. *)
Fixpoint split_commas (o : string) : list string :=
  match o with
  | EmptyString => [EmptyString]
  | String c rest =>
      if Ascii.eqb c "," then EmptyString :: split_commas rest
      else match split_commas rest with
           | x :: xs => String c x :: xs
           | [] => [String c EmptyString]
           end
  end.

Definition Contains (o optionName : string) : bool :=
  match o with
  | EmptyString => false
  | _ => existsb (String.eqb optionName) (split_commas o)
  end.

Definition is_letter_or_digit (c : ascii) : bool :=
  let n := byte_of c in
  ((48 <=? n) && (n <=? 57) || (65 <=? n) && (n <=? 90)
   || (97 <=? n) && (n <=? 122))%N.

(** [isValidTag], on ASCII names. *)
Definition isValidTag (s : string) : bool :=
  match s with
  | EmptyString => false
  | _ =>
      forallb (fun c =>
        is_letter_or_digit c
        || existsb (Ascii.eqb c)
             (list_ascii_of_string "!#$%&()*+-./:;<=>?@[]^_{|}~ "))
        (list_ascii_of_string s)
  end.

(** What the encoder keeps of a struct field: the key it is written
    under, and whether an empty value is left out. *)
Record field := mkField { name : string; omitEmpty : bool }.

(** [typeFields] for one field [goName] with tag [tag]: a field tagged
    ["-"] is dropped; the key is the tag's name when that is valid and
    the Go name of the field otherwise. *)
Definition typeField (goName tag : string) : option field :=
  let t := StructTag.Get tag "json" in
  if String.eqb t "-" then None
  else
    let '(n, opts) := parseTag t in
    let n := if isValidTag n then n else EmptyString in
    Some (mkField (if String.eqb n EmptyString then goName else n)
                  (Contains opts "omitempty")).

(** *** Strings, as [appendString] writes them with [escapeHTML] set *)

Definition hex : string := "0123456789abcdef".

Definition hex_digit (n : N) : ascii :=
  default "0"%char (String.get (N.to_nat n) hex).

(** [htmlSafeSet]: the printable ASCII characters (and DEL) other than
    the quote, the backslash, and the three HTML characters. *)
Definition htmlSafe (b : ascii) : bool :=
  let n := byte_of b in
  ((32 <=? n) && (n <? 128))%N
  && negb (existsb (Ascii.eqb b) [dq; "\"%char; "<"%char; ">"%char; "&"%char]).

(** The escape written for a byte below [utf8.RuneSelf] that is not in
    [htmlSafeSet] (Go 1.22 and later; earlier releases write the
    six-character form for backspace and form feed as well). *)
Definition escape_byte (b : ascii) : string :=
  let n := byte_of b in
  if Ascii.eqb b "\" || Ascii.eqb b dq then String "\" (String b EmptyString)
  else if (n =? 8)%N then "\b"
  else if (n =? 12)%N then "\f"
  else if (n =? 10)%N then "\n"
  else if (n =? 13)%N then "\r"
  else if (n =? 9)%N then "\t"
  else "\u00" +:+ String (hex_digit (N.shiftr n 4))
                   (String (hex_digit (N.land n 15)) EmptyString).

(** [utf8.DecodeRuneInString] on a string whose first byte is not ASCII:
    [None] stands for [(RuneError, 1)], otherwise the rune and its width. *)
Definition in_range (lo hi : N) (a : ascii) : bool :=
  ((lo <=? byte_of a) && (byte_of a <=? hi))%N.

Definition cont (a : ascii) : N := N.land (byte_of a) 63.

Definition DecodeRune (s : string) : option (N * nat) :=
  match s with
  | EmptyString => None
  | String s0 t =>
      let b := byte_of s0 in
      (* first[s0]: width and accepted range of the second byte *)
      let x : option (nat * N * N) :=
        if ((194 <=? b) && (b <=? 223))%N then Some (2%nat, 128%N, 191%N)
        else if (b =? 224)%N then Some (3%nat, 160%N, 191%N)
        else if ((225 <=? b) && (b <=? 236))%N then Some (3%nat, 128%N, 191%N)
        else if (b =? 237)%N then Some (3%nat, 128%N, 159%N)
        else if ((238 <=? b) && (b <=? 239))%N then Some (3%nat, 128%N, 191%N)
        else if (b =? 240)%N then Some (4%nat, 144%N, 191%N)
        else if ((241 <=? b) && (b <=? 243))%N then Some (4%nat, 128%N, 191%N)
        else if (b =? 244)%N then Some (4%nat, 128%N, 143%N)
        else None in
      match x, t with
      | Some (sz, lo, hi), String s1 t1 =>
          if negb (in_range lo hi s1) then None
          else if (sz <=? 2)%nat then
            Some (N.lor (N.shiftl (N.land b 31) 6) (cont s1), 2)
          else
            match t1 with
            | String s2 t2 =>
                if negb (in_range 128 191 s2) then None
                else if (sz <=? 3)%nat then
                  Some (N.lor (N.shiftl (N.land b 15) 12)
                          (N.lor (N.shiftl (cont s1) 6) (cont s2)), 3)
                else
                  match t2 with
                  | String s3 _ =>
                      if negb (in_range 128 191 s3) then None
                      else Some (N.lor (N.shiftl (N.land b 7) 18)
                                   (N.lor (N.shiftl (cont s1) 12)
                                      (N.lor (N.shiftl (cont s2) 6) (cont s3))), 4)
                  | EmptyString => None
                  end
            | EmptyString => None
            end
      | _, _ => None
      end
  end.

(** The body of the loop of [appendString].  [pend] counts the bytes of
    the current rune that are still to be passed over: they are copied
    when [copy] is set and dropped otherwise (the rune was escaped). *)
Fixpoint appendString_loop (copy : bool) (pend : nat) (src : string) : string :=
  match src with
  | EmptyString => EmptyString
  | String b rest =>
      match pend with
      | S k =>
          if copy then String b (appendString_loop copy k rest)
          else appendString_loop copy k rest
      | O =>
          if (byte_of b <? 128)%N then
            if htmlSafe b then String b (appendString_loop true 0 rest)
            else escape_byte b +:+ appendString_loop true 0 rest
          else
            match DecodeRune src with
            | None => ("\u" +:+ "fffd") +:+ appendString_loop true 0 rest
            | Some (c, size) =>
                if ((c =? 8232) || (c =? 8233))%N then
                  "\u202" +:+ String (hex_digit (N.land c 15))
                                (appendString_loop false (size - 1) rest)
                else String b (appendString_loop true (size - 1) rest)
            end
      end
  end.

Definition appendString (src : string) : string :=
  String dq (appendString_loop true 0 src +:+ String dq EmptyString).

(** *** Structs *)

(** [structEncoder.encode] on the list of the fields with their values: a
    field with [omitEmpty] whose value has length 0 is skipped; the first
    field written follows an opening brace and the others a comma. *)
Fixpoint encode_fields (first : bool) (fs : list (field * string)) : string :=
  match fs with
  | [] => if first then "{}" else "}"
  | (f, v) :: fs =>
      if omitEmpty f && (String.length v =? 0)%nat then encode_fields first fs
      else (if first then "{" else ",")
           +:+ appendString (name f) +:+ ":" +:+ appendString v
           +:+ encode_fields false fs
  end.

End json.

(** ** The envelope *)

Record Message := mkMessage { Sender : string; Recipient : string; Content : string }.

(** The three fields of [Message], each with its Go name and its tag as
    written in the source: the tag of [Sender] has a space after the colon. *)
Definition Message_tags : list (string * string) :=
  [ ("Sender",    "json: " +:+ quoted "sender,omitempty");
    ("Recipient", "json:" +:+ quoted "recipient,omitempty");
    ("Content",   "json:" +:+ quoted "content,omitempty") ].

Definition Message_values (m : Message) : list string :=
  [ Sender m; Recipient m; Content m ].

(** The fields the encoder writes for a [Message], with their values. *)
Definition Message_fields (m : Message) : list (json.field * string) :=
  omap (fun '((goName, tag), v) => f ← json.typeField goName tag; Some (f, v))
       (zip Message_tags (Message_values m)).

(** [json.Marshal(&Message{...})]; the call cannot fail on a struct of
    strings and the program drops its error result. *)
Definition Marshal (m : Message) : bytes :=
  json.encode_fields true (Message_fields m).

(** ** Channels of byte slices

    A channel has a capacity, the values buffered in it, and a closed flag.
    Whether a receiver is parked on the channel is decided by the other
    goroutine and comes from outside. *)
Record Chan := mkChan { cap : nat; buf : list bytes; closed : bool }.

(** [make(chan []byte, n)]; [make(chan []byte)] is [make_chan 0]. *)
Definition make_chan (n : nat) : Chan := mkChan n [] false.

Inductive SendResult :=
| SendOk (ch : Chan)    (** the value was taken: handed over or buffered *)
| WouldBlock            (** no receiver and no room *)
| SendPanic.            (** send on closed channel *)

(** One attempt to send [m] (the runtime's [chansend]): a closed channel
    panics; a parked receiver takes the value directly; otherwise the value
    is buffered when there is room. *)
Definition chansend (ch : Chan) (receiver : bool) (m : bytes) : SendResult :=
  if closed ch then SendPanic
  else if receiver then SendOk ch
  else if (length (buf ch) <? cap ch)%nat
       then SendOk (mkChan (cap ch) (buf ch ++ [m]) false)
  else WouldBlock.

(** [close(ch)]; closing a closed channel panics ([None]). *)
Definition closechan (ch : Chan) : option Chan :=
  if closed ch then None else Some (mkChan (cap ch) (buf ch) true).

(** ** What the goroutines outside the control loop do *)

(** A [*Client]. *)
Abbreviation ptr := positive.

(** A [*websocket.Conn]. *)
Abbreviation Conn := nat.

Definition TextMessage : nat := 1.
Definition CloseMessage : nat := 8.

Inductive Action :=
| ToRegister (c : ptr)                        (** [manager.register <- c] *)
| ToUnregister (c : ptr)                      (** [manager.unregister <- c] *)
| ToBroadcast (message : bytes)               (** [manager.broadcast <- message] *)
| SocketClose (s : Conn)                      (** [socket.Close()] *)
| WriteMessage (s : Conn) (messageType : nat) (data : bytes)
| Println (text : string)
| NotFound                                    (** [http.NotFound(res, req)] *)
| Go_read (c : ptr)                           (** [go client.read()] *)
| Go_write (c : ptr).                         (** [go client.write()] *)

#[global] Instance Action_eq_dec : EqDecision Action.
Proof. solve_decision. Defined.

(** Where a pump stands once the given socket results are used up. *)
Inductive PumpState := Parked | Exited.

Module Client.

Record t := mk { id : string; socket : Conn; send : Chan }.

(** The loop of [read], run on the results of the successive calls of
    [ReadMessage] ([inl message] or [inr err]).  The flag tells whether
    the loop was left by [break]. *)
Fixpoint read_loop (self : ptr) (cli : t) (reads : list (bytes + string))
  : list Action * bool :=
  match reads with
  | [] => ([], false)
  | inr _ :: _ => ([ToUnregister self; SocketClose (socket cli)], true)
  | inl message :: rest =>
      let jsonMessage := Marshal (mkMessage (id cli) EmptyString message) in
      let '(acts, broke) := read_loop self cli rest in
      (ToBroadcast jsonMessage :: acts, broke)
  end.

(** [cli.read()]: the loop, then the deferred function when the loop was
    left.  With no error among [reads] the pump is parked in
    [ReadMessage]. *)
Definition read (self : ptr) (cli : t) (reads : list (bytes + string))
  : list Action * PumpState :=
  let '(acts, broke) := read_loop self cli reads in
  if broke then (acts ++ [ToUnregister self; SocketClose (socket cli)], Exited)
  else (acts, Parked).

(** The loop of [write], run on the messages that arrive on [cli.send],
    each with the result of its [WriteMessage] ([None] for success). *)
Fixpoint write_loop (cli : t) (queue : list (bytes * option string))
  : list Action * bool :=
  match queue with
  | [] => ([], false)
  | (message, Some err) :: _ =>
      ([WriteMessage (socket cli) TextMessage message;
        Println ("Error writing message to socket: " +:+ err)], true)
  | (message, None) :: rest =>
      let '(acts, broke) := write_loop cli rest in
      (WriteMessage (socket cli) TextMessage message :: acts, broke)
  end.

(** [cli.write()]: the [range] loop ends by [break] or when the channel
    is closed and drained ([closed_after]); then the close message is
    written and the deferred function closes the socket. *)
Definition write (cli : t) (queue : list (bytes * option string))
  (closed_after : bool) : list Action * PumpState :=
  let '(acts, broke) := write_loop cli queue in
  if broke || closed_after
  then (acts ++ [WriteMessage (socket cli) CloseMessage EmptyString;
                 SocketClose (socket cli)], Exited)
  else (acts, Parked).

End Client.

(** [wsPage]: [upgrade] is the result of [Upgrade] ([None] for an error),
    [newV4] that of [uuid.NewV4] ([inr err] for an error); [self] is the
    address of the [Client] that is allocated.  Returns the heap and the
    actions. *)
Definition wsPage (upgrade : option Conn) (newV4 : string + string)
  (self : ptr) (heap : gmap positive Client.t)
  : gmap positive Client.t * list Action :=
  match upgrade with
  | None => (heap, [NotFound])
  | Some conn =>
      match newV4 with
      | inr err => (heap, [Println ("Error generating UUID: " +:+ err)])
      | inl uuid =>
          let client := Client.mk uuid conn (make_chan 0) in
          (<[self := client]> heap, [ToRegister self; Go_read self; Go_write self])
      end
  end.

(** ** The control loop *)

(** The state the control loop works on: the map [manager.clients] and the
    [Client] structs its keys point to. *)
Record World := mkWorld { clients : gmap positive bool; heap : gmap positive Client.t }.

(** What the control loop does to the queues. *)
Inductive Effect :=
| Delivered (conn : ptr) (message : bytes)   (** [conn.send <- message] went through *)
| Closed (conn : ptr).                       (** [close(conn.send)] *)

#[global] Instance Effect_eq_dec : EqDecision Effect.
Proof. solve_decision. Defined.

(** How the processing of an event ends: the loop is back at its [select],
    it waits in a blocking send on the queue of [on], or it panicked. *)
Inductive Status := Done | Blocked (on : ptr) | Panicked.

#[global] Instance Status_eq_dec : EqDecision Status.
Proof. solve_decision. Defined.

Record Outcome := mkOutcome { status : Status; world : World; log : list Effect }.

(** The three channels the loop selects on. *)
Inductive Event :=
| Register (conn : ptr)
| Unregister (conn : ptr)
| Broadcast (message : bytes).

(** What the rest of the program and the runtime decide while one event is
    processed: the order in which [range] yields the keys of the map, and
    for each client whether its write pump takes a value sent to its queue
    (for a [select] with [default]: is parked on it at that instant). *)
Record Sched := mkSched { order : list ptr; ready : ptr -> bool }.

Module ClientManager.

(** [conn.send]; [None] when [conn] points to no [Client]. *)
Definition queue (w : World) (conn : ptr) : option Chan :=
  Client.send <$> heap w !! conn.

Definition set_queue (conn : ptr) (ch : Chan) (w : World) : World :=
  mkWorld (clients w)
    (alter (fun cl => Client.mk (Client.id cl) (Client.socket cl) ch) conn (heap w)).

Definition set_clients (m : gmap positive bool) (w : World) : World :=
  mkWorld m (heap w).

(** The effect [e], then what [o] does. *)
Definition after (e : Effect) (o : Outcome) : Outcome :=
  mkOutcome (status o) (world o) (e :: log o).

(** [mn.send(message, ignore)], on the keys in the order [range] yields
    them: a blocking send to every client but [ignore]. *)
Fixpoint send (message : bytes) (ignore : ptr) (ready : ptr -> bool)
  (keys : list ptr) (w : World) : Outcome :=
  match keys with
  | [] => mkOutcome Done w []
  | conn :: rest =>
      if decide (conn = ignore) then send message ignore ready rest w
      else
        match queue w conn with
        | None => mkOutcome Panicked w []
        | Some ch =>
            match chansend ch (ready conn) message with
            | SendOk ch' =>
                after (Delivered conn message)
                      (send message ignore ready rest (set_queue conn ch' w))
            | WouldBlock => mkOutcome (Blocked conn) w []
            | SendPanic => mkOutcome Panicked w []
            end
        end
  end.

(** [case conn := <-mn.register] *)
Definition on_register (conn : ptr) (s : Sched) (w : World) : Outcome :=
  let w := set_clients (<[conn := true]> (clients w)) w in
  let jsonMessage := Marshal (mkMessage EmptyString EmptyString "/A new socket has connected") in
  send jsonMessage conn (ready s) (order s) w.

(** [case conn := <-mn.unregister] *)
Definition on_unregister (conn : ptr) (s : Sched) (w : World) : Outcome :=
  match clients w !! conn with
  | Some _ =>
      match queue w conn with
      | None => mkOutcome Panicked w []
      | Some ch =>
          match closechan ch with
          | None => mkOutcome Panicked w []
          | Some ch' =>
              let w := set_queue conn ch' w in
              let w := set_clients (delete conn (clients w)) w in
              let jsonMessage := Marshal (mkMessage EmptyString EmptyString "/A socket has disconnected") in
              after (Closed conn) (send jsonMessage conn (ready s) (order s) w)
          end
      end
  | None => mkOutcome Done w []
  end.

(** The loop of [case message := <-mn.broadcast]: a [select] with a send
    and a [default] for every key. *)
Fixpoint relay (message : bytes) (ready : ptr -> bool) (keys : list ptr)
  (w : World) : Outcome :=
  match keys with
  | [] => mkOutcome Done w []
  | conn :: rest =>
      match queue w conn with
      | None => mkOutcome Panicked w []
      | Some ch =>
          match chansend ch (ready conn) message with
          | SendOk ch' =>
              after (Delivered conn message)
                    (relay message ready rest (set_queue conn ch' w))
          | WouldBlock =>
              match closechan ch with
              | None => mkOutcome Panicked w []
              | Some ch' =>
                  let w := set_queue conn ch' w in
                  let w := set_clients (delete conn (clients w)) w in
                  after (Closed conn) (relay message ready rest w)
              end
          | SendPanic => mkOutcome Panicked w []
          end
      end
  end.

Definition on_broadcast (message : bytes) (s : Sched) (w : World) : Outcome :=
  relay message (ready s) (order s) w.

(** One round of the [select] of [start]. *)
Definition step (w : World) (ev : Event) (s : Sched) : Outcome :=
  match ev with
  | Register conn => on_register conn s w
  | Unregister conn => on_unregister conn s w
  | Broadcast message => on_broadcast message s w
  end.

(** [mn.start()] on the events it receives, in order; the loop goes on to
    the next event only when the processing of the last one is done. *)
Fixpoint start (w : World) (evs : list (Event * Sched)) : Outcome :=
  match evs with
  | [] => mkOutcome Done w []
  | (ev, s) :: rest =>
      let o := step w ev s in
      match status o with
      | Done =>
          let o' := start (world o) rest in
          mkOutcome (status o') (world o') (log o ++ log o')
      | _ => o
      end
  end.

(** The keys of the map when the [range] loop of an event starts. *)
Definition range_keys (w : World) (ev : Event) : gset positive :=
  match ev with
  | Register conn => {[conn]} ∪ dom (clients w)
  | Unregister conn => dom (clients w) ∖ {[conn]}
  | Broadcast _ => dom (clients w)
  end.

(** A schedule yields every key of the map once. *)
Definition sched_ok (w : World) (ev : Event) (s : Sched) : Prop :=
  order s ≡ₚ elements (range_keys w ev).

End ClientManager.

(** The global [manager] before [start] has processed anything: no
    clients; [h] holds the [Client] structs that [wsPage] allocates. *)
Definition manager (h : gmap positive Client.t) : World := mkWorld ∅ h.

(** ** Observations on worlds and logs *)

(** The queue of [c] exists and is open. *)
Definition is_open (w : World) (c : ptr) : Prop :=
  ∃ ch, ClientManager.queue w c = Some ch ∧ closed ch = false.

(** The queue of [c] exists and is closed. *)
Definition is_closed (w : World) (c : ptr) : Prop :=
  ∃ ch, ClientManager.queue w c = Some ch ∧ closed ch = true.

(** The live set. *)
Definition live (w : World) : gset positive := dom (clients w).

(** Every member of the live set has an open queue. *)
Definition members_open (w : World) : Prop := ∀ c, c ∈ live w → is_open w c.

(** A non-blocking send to [c] goes through: a receiver is parked on the
    queue or the buffer has room. *)
Definition accepts (w : World) (ready : ptr -> bool) (c : ptr) : bool :=
  match ClientManager.queue w c with
  | Some ch => ready c || (length (buf ch) <? cap ch)%nat
  | None => false
  end.

(** The messages the log delivers to [c], in order. *)
Definition deliveries_to (c : ptr) (l : list Effect) : list bytes :=
  omap (fun e => match e with
                 | Delivered c' m => if decide (c' = c) then Some m else None
                 | Closed _ => None
                 end) l.

(** How often the log closes the queue of [c]. *)
Definition closes_of (c : ptr) (l : list Effect) : nat :=
  length (filter (fun e => e = Closed c) l).

(** The closed flag and the capacity of the queue of [c]. *)
Definition flags (w : World) (c : ptr) : option (bool * nat) :=
  (fun ch => (closed ch, cap ch)) <$> ClientManager.queue w c.

(** What the fan-out loop of a broadcast does for one key. *)
Definition relay_effect (w : World) (m : bytes) (rd : ptr -> bool) (c : ptr) : Effect :=
  if accepts w rd c then Delivered c m else Closed c.

(** The keys the fan-out loop evicts. *)
Definition evicted (w : World) (rd : ptr -> bool) (keys : list ptr) (c : ptr) : bool :=
  bool_decide (c ∈ keys) && negb (accepts w rd c).

(** What the rest of the program guarantees about an event: [wsPage] sends
    on [register] a client it has just constructed, and nothing but the
    control loop closes a queue, so the queue of a client that arrives on
    [register] is open. *)
Definition event_ok (w : World) (ev : Event) : Prop :=
  match ev with
  | Register conn => is_open w conn
  | _ => True
  end.

(** The connection an event registers. *)
Definition registered_by (ev : Event) : gset positive :=
  match ev with
  | Register conn => {[conn]}
  | _ => ∅
  end.

(** The invariant of the control loop, for the connections [seen] on
    [register] so far: the members of the live set have open queues, and
    the connections that were registered and are no longer members have
    closed ones. *)
Definition hub_inv (seen : gset positive) (w : World) : Prop :=
  (∀ c, c ∈ live w → is_open w c)
  ∧ (∀ c, c ∈ seen → c ∉ live w → is_closed w c).

(** The assumptions on a run: every event is as the program sends it and
    every schedule yields the keys of the map. *)
Fixpoint run_ok (w : World) (evs : list (Event * Sched)) : Prop :=
  match evs with
  | [] => True
  | (ev, s) :: rest =>
      event_ok w ev ∧ ClientManager.sched_ok w ev s
      ∧ (status (ClientManager.step w ev s) = Done →
         run_ok (world (ClientManager.step w ev s)) rest)
  end.

(** The events the loop has taken from its channels: all of them when the
    run is done, and those up to the one it waits in otherwise. *)
Fixpoint taken (w : World) (evs : list (Event * Sched)) : list (Event * Sched) :=
  match evs with
  | [] => []
  | (ev, s) :: rest =>
      (ev, s) :: match status (ClientManager.step w ev s) with
                 | Done => taken (world (ClientManager.step w ev s)) rest
                 | _ => []
                 end
  end.

(** The connections registered by a list of events. *)
Definition registered (evs : list (Event * Sched)) : gset positive :=
  ⋃ ((fun e => registered_by e.1) <$> evs).

(** "Registered and not subsequently unregistered". *)
Definition registered_last (c : ptr) (evs : list Event) : Prop :=
  ∃ pre post, evs = pre ++ Register c :: post ∧ Unregister c ∉ post.

(** The event is a Broadcast. *)
Definition is_broadcast (ev : Event) : bool :=
  match ev with Broadcast _ => true | _ => false end.

(** The live set that a list of register and unregister events leaves,
    event by event. *)
Fixpoint live_fold (S : gset positive) (evs : list Event) : gset positive :=
  match evs with
  | [] => S
  | Register c :: rest => live_fold ({[c]} ∪ S) rest
  | Unregister c :: rest => live_fold (S ∖ {[c]}) rest
  | Broadcast _ :: rest => live_fold S rest
  end.

(** The messages read before the first failure of [ReadMessage]. *)
Fixpoint forwarded (reads : list (bytes + string)) : list bytes :=
  match reads with
  | inl message :: rest => message :: forwarded rest
  | _ => []
  end.

(** The payloads a pump hands to the control loop as Broadcast events. *)
Definition broadcasts (acts : list Action) : list bytes :=
  omap (fun a => match a with ToBroadcast m => Some m | _ => None end) acts.

(** How often a pump sends [c] on [manager.unregister]. *)
Definition unregisters (c : ptr) (acts : list Action) : nat :=
  length (filter (fun a => a = ToUnregister c) acts).

(** The action is a write to the socket. *)
Definition is_write (a : Action) : bool :=
  match a with WriteMessage _ _ _ => true | _ => false end.

(** The writes to the socket among the actions. *)
Definition socket_writes (acts : list Action) : list Action :=
  filter (fun a => is_write a = true) acts.

(** ** A concrete session

    Three clients as [wsPage] constructs them, at the addresses 1, 2, 3. *)
Module Session.
Local Open Scope positive_scope.

Definition A : ptr := 1.
Definition B : ptr := 2.
Definition C : ptr := 3.

Definition heap_abc : gmap positive Client.t :=
  (wsPage (Some 12%nat) (inl "c-id") C
     (wsPage (Some 11%nat) (inl "b-id") B
        (wsPage (Some 10%nat) (inl "a-id") A ∅).1).1).1.

(** Every pump takes what is sent to it. *)
Definition all_ready (keys : list ptr) : Sched := mkSched keys (fun _ => true).

(** Every pump but that of [c] takes what is sent to it. *)
Definition all_but (c : ptr) (keys : list ptr) : Sched :=
  mkSched keys (fun c' => negb (Pos.eqb c' c)).

Definition register_abc : list (Event * Sched) :=
  [ (Register A, all_ready [A]);
    (Register B, all_ready [B; A]);
    (Register C, all_ready [C; B; A]) ].

(** The world once A, B and C are registered. *)
Definition world_abc : World :=
  world (ClientManager.start (manager heap_abc) register_abc).

Ltac crunch :=
  repeat match goal with
         | |- _ ∧ _ => split
         | |- _ → _ => intros ?
         | |- ∀ _, _ => intros ?
         | |- is_open _ _ => eexists; split; vm_compute; reflexivity
         | |- is_closed _ _ => eexists; split; vm_compute; reflexivity
         end;
  try (vm_compute; reflexivity).

End Session.

(** ** Further observations *)

(** The identity and the socket of the client at [c]. *)
Definition identity (w : World) (c : ptr) : option (string * Conn) :=
  (fun cl => (Client.id cl, Client.socket cl)) <$> heap w !! c.

(** The message that the processing of an event sends: the notice of the
    register and unregister cases, the payload of a broadcast. *)
Definition event_message (ev : Event) : bytes :=
  match ev with
  | Register _ => Marshal (mkMessage EmptyString EmptyString "/A new socket has connected")
  | Unregister _ => Marshal (mkMessage EmptyString EmptyString "/A socket has disconnected")
  | Broadcast message => message
  end.

(** The connection an event is about. *)
Definition originator (ev : Event) : option ptr :=
  match ev with
  | Register conn | Unregister conn => Some conn
  | Broadcast _ => None
  end.

(** The action is a send on one of the channels of the manager. *)
Definition to_hub (a : Action) : bool :=
  match a with
  | ToRegister _ | ToUnregister _ | ToBroadcast _ => true
  | _ => false
  end.

(** The action is a call of [socket.Close]. *)
Definition is_close (a : Action) : bool :=
  match a with SocketClose _ => true | _ => false end.

(** The text messages written to the socket, in order. *)
Definition text_writes (acts : list Action) : list bytes :=
  omap (fun a => match a with
                 | WriteMessage _ ty m =>
                     if decide (ty = TextMessage) then Some m else None
                 | _ => None
                 end) acts.

(** All the bytes of the string are below [utf8.RuneSelf]. *)
Fixpoint ascii_only (s : string) : bool :=
  match s with
  | EmptyString => true
  | String c rest => (byte_of c <? 128)%N && ascii_only rest
  end.

(** The value of a hexadecimal digit of [json.hex]. *)
Definition hex_value (c : ascii) : option N :=
  (fun p => N.of_nat p.1) <$> list_find (fun x => x = c) (list_ascii_of_string json.hex).

(** Reading back the first character of the body of a JSON string: a
    quote ends the body; a backslash starts one of the escapes that
    [json.escape_byte] writes; any other byte stands for itself.  Used to
    show that the encoding loses nothing on ASCII text. *)
Definition unescape_head (s : string) : option (ascii * string) :=
  match s with
  | EmptyString => None
  | String c rest =>
      if Ascii.eqb c dq then None
      else if Ascii.eqb c "\" then
        match rest with
        | EmptyString => None
        | String e rest' =>
            if Ascii.eqb e "\" || Ascii.eqb e dq then Some (e, rest')
            else if Ascii.eqb e "b" then Some (ascii_of_nat 8, rest')
            else if Ascii.eqb e "f" then Some (ascii_of_nat 12, rest')
            else if Ascii.eqb e "n" then Some (ascii_of_nat 10, rest')
            else if Ascii.eqb e "r" then Some (ascii_of_nat 13, rest')
            else if Ascii.eqb e "t" then Some (ascii_of_nat 9, rest')
            else if Ascii.eqb e "u" then
              match rest' with
              | String z1 (String z2 (String h (String l r))) =>
                  if Ascii.eqb z1 "0" && Ascii.eqb z2 "0" then
                    hv ← hex_value h; lv ← hex_value l;
                    Some (ascii_of_N (16 * hv + lv), r)
                  else None
              | _ => None
              end
            else None
        end
      else Some (c, rest)
  end.

(** A queue flag either stays, or goes from open to closed. *)
Definition flags_step (f f' : option (bool * nat)) : Prop :=
  f' = f ∨ ∃ n, f = Some (false, n) ∧ f' = Some (true, n).

(** The token that [json.appendString_loop] writes for an ASCII byte. *)
Definition token (b : ascii) : string :=
  if json.htmlSafe b then String b EmptyString else json.escape_byte b.

(** * Properties *)

(** ** Counting in logs *)

Lemma closes_of_none c l : Closed c ∉ l → closes_of c l = 0.
Proof.
  unfold closes_of. induction l as [|e l IH]; [done|].
  intros [Hne Hl]%not_elem_of_cons.
  rewrite filter_cons_False by (intros ->; done). by apply IH.
Qed.

Lemma closes_of_cons_eq c l : closes_of c (Closed c :: l) = S (closes_of c l).
Proof. unfold closes_of. by rewrite filter_cons_True. Qed.

Lemma closes_of_cons_ne c e l : e ≠ Closed c → closes_of c (e :: l) = closes_of c l.
Proof. intros. unfold closes_of. by rewrite filter_cons_False. Qed.

Section queues.
Import ClientManager.

Lemma queue_set_queue_eq w c ch :
  is_Some (queue w c) → queue (set_queue c ch w) c = Some ch.
Proof.
  unfold queue, set_queue; simpl. intros [ch0 H].
  rewrite lookup_alter_eq. destruct (heap w !! c); simplify_eq/=; done.
Qed.

Lemma queue_set_queue_ne w c c' ch :
  c ≠ c' → queue (set_queue c ch w) c' = queue w c'.
Proof. intros. unfold queue, set_queue; simpl. by rewrite lookup_alter_ne. Qed.

Lemma queue_set_clients w m c : queue (set_clients m w) c = queue w c.
Proof. done. Qed.

Lemma set_queue_same w c ch : queue w c = Some ch → set_queue c ch w = w.
Proof.
  unfold queue, set_queue. destruct w as [cs h]; simpl. intros H. f_equal.
  apply map_eq; intros i. destruct (decide (c = i)) as [->|Hne].
  - rewrite lookup_alter_eq. destruct (h !! i) as [[]|]; simplify_eq/=; done.
  - by rewrite lookup_alter_ne.
Qed.

Lemma chansend_open ch r m :
  closed ch = false →
  chansend ch r m = (if r then SendOk ch
                     else if (length (buf ch) <? cap ch)%nat
                          then SendOk (mkChan (cap ch) (buf ch ++ [m]) false)
                          else WouldBlock).
Proof. unfold chansend. by intros ->. Qed.

Lemma chansend_ok_flags ch r m ch' :
  chansend ch r m = SendOk ch' → closed ch' = closed ch ∧ cap ch' = cap ch.
Proof.
  unfold chansend. destruct (closed ch) eqn:E; [done|].
  destruct r; [by intros [= <-]|].
  case_match; [|done]. by intros [= <-].
Qed.

Lemma closechan_open ch :
  closed ch = false → closechan ch = Some (mkChan (cap ch) (buf ch) true).
Proof. unfold closechan. by intros ->. Qed.

End queues.

Section flags.
Import ClientManager.

Lemma flags_set_clients w m c : flags (set_clients m w) c = flags w c.
Proof. done. Qed.

Lemma flags_set_queue_ne w c c' ch :
  c ≠ c' → flags (set_queue c ch w) c' = flags w c'.
Proof. intros. unfold flags. by rewrite queue_set_queue_ne. Qed.

Lemma flags_set_queue_eq w c ch ch' :
  queue w c = Some ch → flags (set_queue c ch' w) c = Some (closed ch', cap ch').
Proof. intros H. unfold flags. rewrite queue_set_queue_eq; [done|]. by rewrite H. Qed.

Lemma flags_set_queue_keep w c c' ch ch' :
  queue w c = Some ch → closed ch' = closed ch → cap ch' = cap ch →
  flags (set_queue c ch' w) c' = flags w c'.
Proof.
  intros H Hc Hk. destruct (decide (c = c')) as [<-|Hne].
  - rewrite (flags_set_queue_eq _ _ ch) by done. unfold flags. rewrite H. simpl.
    by rewrite Hc, Hk.
  - by apply flags_set_queue_ne.
Qed.

Lemma is_open_flags w c : is_open w c ↔ ∃ n, flags w c = Some (false, n).
Proof.
  unfold is_open, flags. split.
  - intros (ch & -> & Hc). exists (cap ch). simpl. by rewrite Hc.
  - intros (n & H). destruct (queue w c) as [ch|]; simplify_eq/=. by exists ch.
Qed.

Lemma is_closed_flags w c : is_closed w c ↔ ∃ n, flags w c = Some (true, n).
Proof.
  unfold is_closed, flags. split.
  - intros (ch & -> & Hc). exists (cap ch). simpl. by rewrite Hc.
  - intros (n & H). destruct (queue w c) as [ch|]; simplify_eq/=. by exists ch.
Qed.

Lemma open_not_closed w c : is_open w c → ¬ is_closed w c.
Proof.
  intros (ch & H1 & H2) (ch' & H1' & H2'). congruence.
Qed.

End flags.

(** ** The helper [send] *)
Section send_facts.
Import ClientManager.

(** [send] leaves the map alone, closes nothing, and what it delivers is
    [message], to keys other than [ignore]. *)
Lemma send_frame m ig rd keys w :
  clients (world (send m ig rd keys w)) = clients w
  ∧ (∀ c, flags (world (send m ig rd keys w)) c = flags w c)
  ∧ (∀ e, e ∈ log (send m ig rd keys w) →
          ∃ c, e = Delivered c m ∧ c ∈ keys ∧ c ≠ ig).
Proof.
  revert w. induction keys as [|conn rest IH]; intros w; simpl.
  - split_and!; [done..|]. intros e He. by apply elem_of_nil in He.
  - destruct (decide (conn = ig)) as [->|Hne].
    { destruct (IH w) as (H1 & H2 & H3). split_and!; [done..|].
      intros e He. destruct (H3 e He) as (c & -> & Hc & Hi).
      exists c. split_and!; [done| |done]. by right. }
    destruct (queue w conn) as [ch|] eqn:Hq; simpl.
    2:{ split_and!; [done..|]. intros e He. by apply elem_of_nil in He. }
    destruct (chansend ch (rd conn) m) as [ch'| |] eqn:Hs; simpl.
    2,3: split_and!; [done..|]; intros e He; by apply elem_of_nil in He.
    destruct (chansend_ok_flags _ _ _ _ Hs) as [Hc Hk].
    destruct (IH (set_queue conn ch' w)) as (H1 & H2 & H3).
    split_and!.
    + by rewrite H1.
    + intros c. rewrite H2. by apply (flags_set_queue_keep _ _ _ ch).
    + intros e [->|He]%elem_of_cons.
      * exists conn. split_and!; [done| |done]. by left.
      * destruct (H3 e He) as (c & -> & Hc' & Hi).
        exists c. split_and!; [done| |done]. by right.
Qed.

(** When every recipient has an open queue and takes the value, [send]
    delivers to all of them and changes nothing. *)
Lemma send_done m ig rd keys w :
  (∀ c, c ∈ keys → c ≠ ig → is_open w c ∧ rd c = true) →
  send m ig rd keys w
  = mkOutcome Done w ((fun c => Delivered c m) <$> filter (fun c => c ≠ ig) keys).
Proof.
  induction keys as [|conn rest IH]; intros H; simpl; [done|].
  destruct (decide (conn = ig)) as [->|Hne].
  { rewrite filter_cons_False by (intros ?; done).
    apply IH. intros c Hc. apply H. by right. }
  rewrite filter_cons_True by done.
  destruct (H conn) as [(ch & Hq & Hc) Hr]; [by left|done|].
  rewrite Hq, (chansend_open _ _ _ Hc), Hr. rewrite (set_queue_same _ _ _ Hq).
  rewrite IH; [done|]. intros c Hc'. apply H. by right.
Qed.

(** With open queues [send] cannot panic, and it can only wait on a
    recipient whose queue takes nothing at that time. *)
Lemma send_no_panic m ig rd keys w :
  (∀ c, c ∈ keys → c ≠ ig → is_open w c) →
  status (send m ig rd keys w) ≠ Panicked
  ∧ (∀ c, status (send m ig rd keys w) = Blocked c →
          c ∈ keys ∧ c ≠ ig ∧ rd c = false
          ∧ accepts (world (send m ig rd keys w)) rd c = false).
Proof.
  revert w. induction keys as [|conn rest IH]; intros w H; simpl; [done|].
  destruct (decide (conn = ig)) as [->|Hne].
  { destruct (IH w) as [H1 H2]; [intros c Hc; apply H; by right|].
    split; [done|]. intros c Hc. destruct (H2 c Hc) as (?&?&?&?).
    split_and!; [by right|done..]. }
  destruct (H conn) as (ch & Hq & Hc); [by left|done|].
  rewrite Hq, (chansend_open _ _ _ Hc).
  assert (Hrest : ∀ ch', closed ch' = closed ch → cap ch' = cap ch →
            ∀ c, c ∈ rest → c ≠ ig → is_open (set_queue conn ch' w) c).
  { intros ch' E1 E2 c Hc' Hi. apply is_open_flags.
    rewrite (flags_set_queue_keep _ _ _ ch) by done.
    apply is_open_flags, H; [by right|done]. }
  destruct (rd conn) eqn:Hr;
    [|destruct (length (buf ch) <? cap ch)%nat eqn:Hroom]; simpl.
  - destruct (IH (set_queue conn ch w)) as [H1 H2]; [by apply Hrest|].
    split; [done|]. intros c Hb. destruct (H2 c Hb) as (?&?&?&?).
    split_and!; [by right|done..].
  - destruct (IH (set_queue conn (mkChan (cap ch) (buf ch ++ [m]) false) w))
      as [H1 H2]; [by apply Hrest|].
    split; [done|]. intros c Hb. destruct (H2 c Hb) as (?&?&?&?).
    split_and!; [by right|done..].
  - split; [done|]. intros c [= <-]. split_and!; [by left|done|done|].
    unfold accepts. by rewrite Hq, Hr, Hroom.
Qed.

(** A recipient whose queue takes nothing stops [send]: the loop does
    not get past it. *)
Lemma send_stuck m ig rd keys w r :
  r ∈ keys → r ≠ ig → accepts w rd r = false →
  status (send m ig rd keys w) ≠ Done.
Proof.
  revert w. induction keys as [|conn rest IH]; intros w Hr Hi Ha; simpl.
  { by apply elem_of_nil in Hr. }
  destruct (decide (conn = ig)) as [->|Hne].
  { apply IH; [|done..]. apply elem_of_cons in Hr as [->|]; done. }
  destruct (queue w conn) as [ch|] eqn:Hq; [|done].
  destruct (decide (conn = r)) as [->|Hnr].
  - unfold accepts in Ha. rewrite Hq in Ha.
    apply orb_false_iff in Ha as [Ha1 Ha2].
    unfold chansend. rewrite Ha1, Ha2. by destruct (closed ch).
  - destruct (chansend ch (rd conn) m) as [ch'| |]; simpl; [|done..].
    apply IH; [|done|].
    + apply elem_of_cons in Hr as [->|]; done.
    + unfold accepts. by rewrite queue_set_queue_ne.
Qed.

End send_facts.

(** ** The fan-out loop of a broadcast *)
Section relay_facts.
Import ClientManager.

Lemma elem_cons_ne (c conn : ptr) (rest : list ptr) :
  c ≠ conn → bool_decide (c ∈ conn :: rest) = bool_decide (c ∈ rest).
Proof.
  intros Hne. apply bool_decide_ext. rewrite elem_of_cons. naive_solver.
Qed.

Lemma accepts_set_queue_ne w rd c c' ch :
  c ≠ c' → accepts (set_queue c ch w) rd c' = accepts w rd c'.
Proof. intros. unfold accepts. by rewrite queue_set_queue_ne. Qed.

Lemma relay_effect_ext w w' m rd (keys : list ptr) :
  (∀ c, c ∈ keys → accepts w' rd c = accepts w rd c) →
  relay_effect w' m rd <$> keys = relay_effect w m rd <$> keys.
Proof.
  intros H. apply list_fmap_ext. intros i c Hc. unfold relay_effect.
  rewrite H; [done|]. by eapply list_elem_of_lookup_2.
Qed.

(** On distinct keys with open queues the loop always comes to its end:
    it visits every key once, delivers where the queue takes the value,
    and closes and removes the others. *)
Lemma relay_spec m rd keys w :
  NoDup keys → (∀ c, c ∈ keys → is_open w c) →
  status (relay m rd keys w) = Done
  ∧ log (relay m rd keys w) = relay_effect w m rd <$> keys
  ∧ (∀ c, clients (world (relay m rd keys w)) !! c
          = if evicted w rd keys c then None else clients w !! c)
  ∧ (∀ c, flags (world (relay m rd keys w)) c
          = if evicted w rd keys c
            then (fun f => (true, f.2)) <$> flags w c else flags w c).
Proof.
  revert w. induction keys as [|conn rest IH]; intros w Hnd Hopen; simpl.
  { split_and!; done. }
  apply NoDup_cons in Hnd as [Hnotin Hnd].
  destruct (Hopen conn) as (ch & Hq & Hc); [by left|].
  rewrite Hq, (chansend_open _ _ _ Hc).
  assert (Hacc : accepts w rd conn = rd conn || (length (buf ch) <? cap ch)%nat).
  { unfold accepts. by rewrite Hq. }
  assert (Hrest : ∀ ch' c, c ∈ rest → is_open (set_queue conn ch' w) c).
  { intros ch' c Hc'. apply is_open_flags.
    rewrite flags_set_queue_ne by (intros ->; done).
    apply is_open_flags, Hopen. by right. }
  assert (Hext : ∀ ch' cs c, c ∈ rest →
            accepts (set_clients cs (set_queue conn ch' w)) rd c = accepts w rd c).
  { intros ch' cs c Hc'. unfold accepts. rewrite queue_set_clients.
    rewrite queue_set_queue_ne by (intros ->; done). done. }
  assert (Hev : ∀ w' c, (∀ c, c ∈ rest → accepts w' rd c = accepts w rd c) →
            evicted w' rd rest c = bool_decide (c ∈ rest) && negb (accepts w rd c)).
  { intros w' c E. unfold evicted. case_bool_decide as Hin; [|done].
    simpl. by rewrite E. }
  destruct (rd conn) eqn:Hr; [|destruct (length (buf ch) <? cap ch)%nat eqn:Hroom];
    simpl in *.
  - (* handed to the parked receiver *)
    rewrite (set_queue_same _ _ _ Hq).
    destruct (IH w Hnd) as (H1 & H2 & H3 & H4); [intros; apply Hopen; by right|].
    split_and!; [done| | |].
    + rewrite H2. unfold relay_effect at 2. by rewrite Hacc.
    + intros c. rewrite H3. unfold evicted.
      destruct (decide (c = conn)) as [->|Hne].
      * rewrite Hacc. rewrite (bool_decide_eq_false_2 (conn ∈ rest)) by done.
        simpl. by rewrite ?andb_false_r.
      * by rewrite elem_cons_ne.
    + intros c. rewrite H4. unfold evicted.
      destruct (decide (c = conn)) as [->|Hne].
      * rewrite Hacc. rewrite (bool_decide_eq_false_2 (conn ∈ rest)) by done.
        simpl. by rewrite ?andb_false_r.
      * by rewrite elem_cons_ne.
  - (* buffered *)
    set (ch' := mkChan (cap ch) (buf ch ++ [m]) false).
    destruct (IH (set_queue conn ch' w) Hnd) as (H1 & H2 & H3 & H4).
    { by apply Hrest. }
    assert (E : ∀ c, c ∈ rest → accepts (set_queue conn ch' w) rd c = accepts w rd c).
    { intros c Hc'. by apply accepts_set_queue_ne; intros ->. }
    split_and!; [done| | |].
    + rewrite H2. unfold relay_effect at 2. rewrite Hacc. simpl.
      f_equal. by apply relay_effect_ext.
    + intros c. rewrite H3, (Hev _ _ E). unfold evicted.
      destruct (decide (c = conn)) as [->|Hne].
      * rewrite Hacc. rewrite (bool_decide_eq_false_2 (conn ∈ rest)) by done.
        simpl. by rewrite ?andb_false_r.
      * by rewrite elem_cons_ne.
    + intros c. rewrite H4, (Hev _ _ E). unfold evicted.
      rewrite (flags_set_queue_keep _ _ _ ch) by done.
      destruct (decide (c = conn)) as [->|Hne].
      * rewrite Hacc. rewrite (bool_decide_eq_false_2 (conn ∈ rest)) by done.
        simpl. by rewrite ?andb_false_r.
      * by rewrite elem_cons_ne.
  - (* default: close and delete *)
    rewrite (closechan_open _ Hc). simpl.
    set (ch' := mkChan (cap ch) (buf ch) true).
    set (w' := set_clients (delete conn (clients w)) (set_queue conn ch' w)).
    destruct (IH w' Hnd) as (H1 & H2 & H3 & H4).
    { intros c Hc'. apply is_open_flags. unfold w'.
      rewrite flags_set_clients, flags_set_queue_ne by (intros ->; done).
      apply is_open_flags, Hopen. by right. }
    assert (E : ∀ c, c ∈ rest → accepts w' rd c = accepts w rd c).
    { intros c Hc'. by apply Hext. }
    split_and!; [done| | |].
    + rewrite H2. unfold relay_effect at 2. rewrite Hacc. simpl.
      f_equal. by apply relay_effect_ext.
    + intros c. rewrite H3, (Hev _ _ E). unfold evicted, w'. simpl.
      destruct (decide (c = conn)) as [->|Hne].
      * rewrite Hacc. rewrite (bool_decide_eq_false_2 (conn ∈ rest)) by done.
        rewrite bool_decide_eq_true_2 by (by left). simpl.
        by rewrite lookup_delete_eq.
      * rewrite lookup_delete_ne by done.
        by rewrite elem_cons_ne.
    + intros c. rewrite H4, (Hev _ _ E). unfold evicted, w'.
      rewrite flags_set_clients.
      destruct (decide (c = conn)) as [->|Hne].
      * rewrite Hacc. rewrite (bool_decide_eq_false_2 (conn ∈ rest)) by done.
        rewrite bool_decide_eq_true_2 by (by left). simpl.
        rewrite (flags_set_queue_eq _ _ ch) by done.
        unfold flags. by rewrite Hq.
      * rewrite flags_set_queue_ne by done.
        by rewrite elem_cons_ne.
Qed.

End relay_facts.

(** ** One event *)

Section step_facts.
Import ClientManager.

Lemma sched_ok_elem w ev s c :
  sched_ok w ev s → c ∈ order s ↔ c ∈ range_keys w ev.
Proof. unfold sched_ok. intros ->. apply elem_of_elements. Qed.

Lemma sched_ok_NoDup w ev s : sched_ok w ev s → NoDup (order s).
Proof. unfold sched_ok. intros ->. apply NoDup_elements. Qed.

(** Registering changes the map by one insertion and no queue flag. *)
Lemma register_frame w conn s :
  clients (world (step w (Register conn) s)) = <[conn := true]> (clients w)
  ∧ (∀ c, flags (world (step w (Register conn) s)) c = flags w c)
  ∧ (∀ c, Closed c ∉ log (step w (Register conn) s)).
Proof.
  simpl. unfold on_register.
  match goal with |- context [send ?m ?ig ?rd ?ks ?w'] =>
    destruct (send_frame m ig rd ks w') as (H1 & H2 & H3) end.
  split_and!; [done|done|].
  intros c Hc. by destruct (H3 _ Hc) as (? & ? & _).
Qed.

(** Unregistering a connection that is not in the map does nothing. *)
Lemma unregister_absent w conn s :
  conn ∉ live w → step w (Unregister conn) s = mkOutcome Done w [].
Proof.
  unfold live. intros H%not_elem_of_dom. simpl. unfold on_unregister.
  by rewrite H.
Qed.

(** Unregistering a member with an open queue closes the queue once and
    removes the member; nothing else changes. *)
Lemma unregister_member w conn s :
  conn ∈ live w → is_open w conn →
  clients (world (step w (Unregister conn) s)) = delete conn (clients w)
  ∧ is_closed (world (step w (Unregister conn) s)) conn
  ∧ (∀ c, c ≠ conn → flags (world (step w (Unregister conn) s)) c = flags w c)
  ∧ closes_of conn (log (step w (Unregister conn) s)) = 1
  ∧ (∀ c, c ≠ conn → closes_of c (log (step w (Unregister conn) s)) = 0)
  ∧ status (step w (Unregister conn) s)
    = status (send (Marshal (mkMessage EmptyString EmptyString "/A socket has disconnected")) conn
                (ready s) (order s)
                (set_clients (delete conn (clients w))
                   (set_queue conn
                      (mkChan (default 0 (cap <$> queue w conn))
                              (default [] (buf <$> queue w conn)) true) w))).
Proof.
  unfold live. intros [b Hb]%elem_of_dom (ch & Hq & Hc).
  simpl. unfold on_unregister. rewrite Hb, Hq, (closechan_open _ Hc). simpl.
  match goal with |- context [send ?m ?ig ?rd ?ks ?w'] =>
    destruct (send_frame m ig rd ks w') as (H1 & H2 & H3) end.
  split_and!.
  - by rewrite H1.
  - apply is_closed_flags. rewrite H2, flags_set_clients.
    rewrite (flags_set_queue_eq _ _ ch) by done. by eexists.
  - intros c Hne. by rewrite H2, flags_set_clients, flags_set_queue_ne.
  - rewrite closes_of_cons_eq. f_equal. apply closes_of_none.
    intros He. by destruct (H3 _ He) as (? & ? & _).
  - intros c Hne. rewrite closes_of_cons_ne by congruence.
    apply closes_of_none. intros He. by destruct (H3 _ He) as (? & ? & _).
  - done.
Qed.

(** The invariant survives every event, whether its processing ends or
    waits in a send, and no event panics. *)
Lemma step_inv seen w ev s :
  hub_inv seen w → event_ok w ev → sched_ok w ev s →
  status (step w ev s) ≠ Panicked
  ∧ hub_inv (seen ∪ registered_by ev) (world (step w ev s)).
Proof.
  intros [Hm Hs] Hev Hsc. destruct ev as [conn|conn|m].
  - (* register *)
    destruct (register_frame w conn s) as (H1 & H2 & _).
    split.
    + simpl. unfold on_register. apply send_no_panic.
      intros c Hc Hne. apply is_open_flags.
      rewrite flags_set_clients. apply is_open_flags, Hm.
      apply (sched_ok_elem _ _ _ _ Hsc) in Hc. simpl in Hc. set_solver.
    + split.
      * intros c. unfold live. rewrite H1, dom_insert_L.
        intros Hc. apply is_open_flags. rewrite H2. apply is_open_flags.
        apply elem_of_union in Hc as [->%elem_of_singleton|Hc]; [done|by apply Hm].
      * intros c. unfold live. rewrite H1, dom_insert_L. simpl.
        intros Hc Hn. apply is_closed_flags. rewrite H2. apply is_closed_flags.
        apply Hs; [|unfold live; set_solver].
        apply elem_of_union in Hc as [Hc| ->%elem_of_singleton]; [done|set_solver].
  - (* unregister *)
    destruct (decide (conn ∈ live w)) as [Hin|Hout].
    2:{ rewrite (unregister_absent _ _ _ Hout). simpl. split; [done|].
        split; [done|]. intros c Hc. apply Hs. set_solver. }
    destruct (unregister_member w conn s Hin (Hm _ Hin)) as (H1 & H2 & H3 & _ & _ & H5).
    split.
    + rewrite H5. apply send_no_panic. intros c Hc Hne.
      apply is_open_flags. rewrite flags_set_clients, flags_set_queue_ne by done.
      apply is_open_flags, Hm. apply (sched_ok_elem _ _ _ _ Hsc) in Hc.
      simpl in Hc. set_solver.
    + split.
      * intros c. unfold live. rewrite H1, dom_delete_L. intros Hc.
        apply is_open_flags. rewrite H3 by set_solver.
        apply is_open_flags, Hm. set_solver.
      * intros c. unfold live. rewrite H1, dom_delete_L. simpl. intros Hc Hn.
        destruct (decide (c = conn)) as [->|Hne]; [done|].
        apply is_closed_flags. rewrite H3 by done. apply is_closed_flags.
        apply Hs; [set_solver|]. unfold live. set_solver.
  - (* broadcast *)
    simpl. unfold on_broadcast.
    destruct (relay_spec m (ready s) (order s) w) as (H1 & _ & H3 & H4).
    { by eapply sched_ok_NoDup. }
    { intros c Hc. apply Hm. by apply (sched_ok_elem _ _ _ _ Hsc) in Hc. }
    split; [by rewrite H1|]. split.
    + intros c. unfold live. intros [b Hb]%elem_of_dom. rewrite H3 in Hb.
      apply is_open_flags. rewrite H4.
      destruct (evicted w (ready s) (order s) c); [done|].
      apply is_open_flags, Hm. by apply elem_of_dom.
    + intros c Hc Hn. unfold live in Hn. apply not_elem_of_dom in Hn.
      rewrite H3 in Hn. apply is_closed_flags. rewrite H4.
      destruct (evicted w (ready s) (order s) c) eqn:E.
      * apply andb_true_iff in E as [E _]. apply bool_decide_eq_true in E.
        apply (sched_ok_elem _ _ _ _ Hsc) in E. simpl in E.
        destruct (proj1 (is_open_flags _ _) (Hm _ E)) as (n & Hf).
        rewrite Hf. by eexists.
      * apply is_closed_flags, Hs; [set_solver|]. by apply not_elem_of_dom.
Qed.

End step_facts.

(** ** Runs of the control loop *)

Section run_facts.
Import ClientManager.

Lemma taken_done w evs : status (start w evs) = Done → taken w evs = evs.
Proof.
  revert w. induction evs as [|[ev s] rest IH]; intros w; simpl; [done|].
  destruct (status (step w ev s)) eqn:E; simpl; [|congruence..].
  intros H. f_equal. by apply IH.
Qed.

(** The invariant holds in every state of a run, and no run panics. *)
Lemma start_inv seen w evs :
  hub_inv seen w → run_ok w evs →
  status (start w evs) ≠ Panicked
  ∧ hub_inv (seen ∪ registered (taken w evs)) (world (start w evs)).
Proof.
  revert seen w. induction evs as [|[ev s] rest IH]; intros seen w Hinv Hok; simpl.
  { split; [done|]. unfold registered. simpl. by rewrite (right_id_L ∅ (∪)). }
  destruct Hok as (Hev & Hsc & Hrest).
  destruct (step_inv seen w ev s Hinv Hev Hsc) as [Hnp Hinv'].
  unfold registered. simpl.
  destruct (status (step w ev s)) eqn:E; simpl.
  - destruct (IH _ _ Hinv' (Hrest eq_refl)) as [H1 H2]. split; [done|].
    unfold registered in H2. by rewrite (assoc_L (∪)).
  - rewrite E. split; [done|]. simpl. by rewrite (right_id_L ∅ (∪)).
  - done.
Qed.

(** With every pump taking what is sent to it, an event is processed to
    its end. *)
Lemma step_done seen w ev s :
  hub_inv seen w → event_ok w ev → sched_ok w ev s →
  (∀ c, ready s c = true) → status (step w ev s) = Done.
Proof.
  intros [Hm Hs] Hev Hsc Hrd. destruct ev as [conn|conn|m].
  - simpl. unfold on_register. rewrite send_done; [done|].
    intros c Hc Hne. split; [|done]. apply is_open_flags.
    rewrite flags_set_clients. apply is_open_flags, Hm.
    apply (sched_ok_elem _ _ _ _ Hsc) in Hc. simpl in Hc. set_solver.
  - destruct (decide (conn ∈ live w)) as [Hin|Hout].
    2:{ by rewrite (unregister_absent _ _ _ Hout). }
    destruct (unregister_member w conn s Hin (Hm _ Hin)) as (_ & _ & _ & _ & _ & H5).
    rewrite H5, send_done; [done|].
    intros c Hc Hne. split; [|done]. apply is_open_flags.
    rewrite flags_set_clients, flags_set_queue_ne by done.
    apply is_open_flags, Hm. apply (sched_ok_elem _ _ _ _ Hsc) in Hc.
    simpl in Hc. set_solver.
  - simpl. unfold on_broadcast. apply relay_spec; [by eapply sched_ok_NoDup|].
    intros c Hc. apply Hm. by apply (sched_ok_elem _ _ _ _ Hsc) in Hc.
Qed.

(** Progress: a run in which every pump takes what is sent to it is
    processed to its end. *)
Lemma start_done seen w evs :
  hub_inv seen w → run_ok w evs →
  Forall (fun e => ∀ c, ready e.2 c = true) evs →
  status (start w evs) = Done.
Proof.
  revert seen w. induction evs as [|[ev s] rest IH]; intros seen w Hinv Hok Hrd;
    simpl; [done|].
  destruct Hok as (Hev & Hsc & Hrest).
  apply Forall_cons in Hrd as [Hrd1 Hrd].
  pose proof (step_done seen w ev s Hinv Hev Hsc Hrd1) as Hd. rewrite Hd. simpl.
  destruct (step_inv seen w ev s Hinv Hev Hsc) as [_ Hinv'].
  apply (IH _ _ Hinv' (Hrest Hd) Hrd).
Qed.

(** Without broadcasts, a run that is done has updated the live set
    event by event. *)
Lemma start_live_fold w evs :
  Forall (fun e => is_broadcast e.1 = false) evs →
  status (start w evs) = Done →
  live (world (start w evs)) = live_fold (live w) evs.*1.
Proof.
  revert w. induction evs as [|[ev s] rest IH]; intros w Hnb; simpl; [done|].
  apply Forall_cons in Hnb as [Hev Hnb]. simpl in Hev.
  destruct (status (step w ev s)) eqn:E; simpl; [|congruence..].
  intros Hd. rewrite (IH _ Hnb Hd). destruct ev as [conn|conn|m]; [| |done].
  - destruct (register_frame w conn s) as (H1 & _).
    unfold live. by rewrite H1, dom_insert_L.
  - f_equal. destruct (decide (conn ∈ live w)) as [Hin|Hout].
    2:{ rewrite (unregister_absent _ _ _ Hout). simpl. unfold live in *. set_solver. }
    revert E. simpl. unfold on_unregister, live in *.
    apply elem_of_dom in Hin as [b Hb]. rewrite Hb.
    destruct (queue w conn) as [ch|]; [|done].
    destruct (closechan ch) as [ch'|]; [|done]. simpl.
    match goal with |- context [send ?m ?ig ?rd ?ks ?w'] =>
      destruct (send_frame m ig rd ks w') as (H1 & _) end.
    intros _. rewrite H1. simpl. by rewrite dom_delete_L.
Qed.

Lemma registered_last_cons c e evs :
  registered_last c (e :: evs)
  ↔ (e = Register c ∧ Unregister c ∉ evs) ∨ registered_last c evs.
Proof.
  unfold registered_last. split.
  - intros (pre & post & Heq & Hn). destruct pre as [|e' pre]; simplify_eq/=.
    + by left.
    + right. by exists pre, post.
  - intros [[-> Hn]|(pre & post & -> & Hn)].
    + by exists [], evs.
    + by exists (e :: pre), post.
Qed.

(** The fold computes the connections that were in the set and are not
    unregistered, and those registered and not unregistered afterwards. *)
Lemma live_fold_spec S evs c :
  c ∈ live_fold S evs
  ↔ registered_last c evs ∨ (c ∈ S ∧ Unregister c ∉ evs).
Proof.
  revert S. induction evs as [|e evs IH]; intros S; simpl.
  - split; [intros H; right; split; [done|apply not_elem_of_nil]|].
    intros [(pre & post & Heq & _)|[H _]]; [by destruct pre|done].
  - rewrite registered_last_cons, not_elem_of_cons.
    destruct e as [c'|c'|m]; rewrite IH.
    + rewrite elem_of_union, elem_of_singleton.
      destruct (decide (c = c')) as [->|Hne]; naive_solver.
    + rewrite elem_of_difference, elem_of_singleton. naive_solver.
    + naive_solver.
Qed.

End run_facts.

(** ** Deliveries of the fan-out loop *)
Section deliveries.
Import ClientManager.

Lemma deliveries_to_cons c e l :
  deliveries_to c (e :: l)
  = match e with
    | Delivered c' m =>
        if decide (c' = c) then m :: deliveries_to c l else deliveries_to c l
    | Closed _ => deliveries_to c l
    end.
Proof. unfold deliveries_to. simpl. destruct e; [case_decide|]; done. Qed.

Lemma deliveries_relay w m rd (keys : list ptr) c :
  NoDup keys →
  deliveries_to c (relay_effect w m rd <$> keys)
  = if bool_decide (c ∈ keys) && accepts w rd c then [m] else [].
Proof.
  induction keys as [|k keys IH]; intros Hnd; [done|].
  apply NoDup_cons in Hnd as [Hk Hnd].
  rewrite fmap_cons, deliveries_to_cons, (IH Hnd).
  destruct (decide (c = k)) as [->|Hne].
  - rewrite (bool_decide_eq_true_2 (k ∈ k :: keys)) by (by left).
    rewrite (bool_decide_eq_false_2 (k ∈ keys)) by done. simpl.
    unfold relay_effect. destruct (accepts w rd k); [|done].
    by rewrite decide_True.
  - rewrite elem_cons_ne by done.
    unfold relay_effect at 1. destruct (accepts w rd k); [|done].
    by rewrite decide_False.
Qed.

Lemma closes_relay w m rd (keys : list ptr) c :
  NoDup keys →
  closes_of c (relay_effect w m rd <$> keys)
  = if evicted w rd keys c then 1 else 0.
Proof.
  unfold evicted. induction keys as [|k keys IH]; intros Hnd; [done|].
  apply NoDup_cons in Hnd as [Hk Hnd]. rewrite fmap_cons.
  destruct (decide (c = k)) as [->|Hne].
  - rewrite bool_decide_eq_true_2 by (by left). simpl.
    specialize (IH Hnd). rewrite bool_decide_eq_false_2 in IH by done.
    unfold relay_effect at 1. destruct (accepts w rd k); simpl.
    + by rewrite closes_of_cons_ne.
    + by rewrite closes_of_cons_eq, IH.
  - rewrite elem_cons_ne by done. rewrite <- IH by done.
    apply closes_of_cons_ne. unfold relay_effect.
    destruct (accepts w rd k); congruence.
Qed.

(** What a broadcast does in a world whose members have open queues. *)
Lemma broadcast_spec w m s :
  members_open w → sched_ok w (Broadcast m) s →
  status (step w (Broadcast m) s) = Done
  ∧ (∀ c, c ∈ live (world (step w (Broadcast m) s))
          ↔ c ∈ live w ∧ accepts w (ready s) c = true)
  ∧ (∀ c, c ∈ live w → accepts w (ready s) c = false →
          is_closed (world (step w (Broadcast m) s)) c)
  ∧ (∀ c, deliveries_to c (log (step w (Broadcast m) s))
          = if bool_decide (c ∈ live w) && accepts w (ready s) c then [m] else [])
  ∧ (∀ c, closes_of c (log (step w (Broadcast m) s))
          = if bool_decide (c ∈ live w) && negb (accepts w (ready s) c)
            then 1 else 0).
Proof.
  intros Hm Hsc. simpl. unfold on_broadcast.
  pose proof (sched_ok_NoDup _ _ _ Hsc) as Hnd.
  assert (Hin : ∀ c, c ∈ order s ↔ c ∈ live w).
  { intros c. by rewrite (sched_ok_elem _ _ _ _ Hsc). }
  destruct (relay_spec m (ready s) (order s) w Hnd) as (H1 & H2 & H3 & H4).
  { intros c Hc. by apply Hm, Hin. }
  assert (Hev : ∀ c, evicted w (ready s) (order s) c
                     = bool_decide (c ∈ live w) && negb (accepts w (ready s) c)).
  { intros c. unfold evicted. f_equal. apply bool_decide_ext, Hin. }
  split_and!; [done| | | |].
  - intros c. unfold live at 1. rewrite elem_of_dom, H3, Hev.
    case_bool_decide as Hl; simpl.
    + destruct (accepts w (ready s) c); simpl.
      * split; [done|]. intros _. by apply elem_of_dom.
      * split; [by intros [? ?]|by intros [_ ?]].
    + rewrite <- elem_of_dom. split; [done|by intros [? _]].
  - intros c Hl Ha. apply is_closed_flags. rewrite H4, Hev.
    rewrite bool_decide_eq_true_2, Ha by done. simpl.
    destruct (proj1 (is_open_flags _ _) (Hm _ Hl)) as (n & ->). by eexists.
  - intros c. rewrite H2, deliveries_relay by done.
    by rewrite (bool_decide_ext _ _ (Hin c)).
  - intros c. by rewrite H2, closes_relay, Hev.
Qed.

End deliveries.

(** ** The concrete session is a run of the program *)
Section session_facts.
Import Session.

Lemma session_register_ok : run_ok (manager heap_abc) register_abc.
Proof. simpl. unfold ClientManager.sched_ok. crunch. Qed.

Lemma session_run_open evs :
  run_ok (manager heap_abc) evs →
  members_open (world (ClientManager.start (manager heap_abc) evs)).
Proof.
  intros Hok.
  pose proof (start_inv ∅ (manager heap_abc) evs) as [_ [H _]];
    [|exact Hok|exact H].
  split; intros c Hc; by apply not_elem_of_empty in Hc.
Qed.

Lemma session_world_open : members_open world_abc.
Proof. apply session_run_open, session_register_ok. Qed.

End session_facts.

(** ** The live set under register and unregister events *)

(** C3: for every finite sequence of Register and Unregister events that
    the control loop has processed, the live set holds exactly the
    connections that were registered and not unregistered afterwards; a
    Register for a connection that is already in the live set, and an
    Unregister for a connection that is not, leave the live set and the
    open/closed state of every queue as they were, and close no queue. *)
Theorem live_set_registered_not_unregistered :
  (∀ h evs,
     Forall (fun e => is_broadcast e.1 = false) evs →
     status (ClientManager.start (manager h) evs) = Done →
     ∀ c, c ∈ live (world (ClientManager.start (manager h) evs))
          ↔ registered_last c evs.*1)
  ∧ (∀ w conn s,
       conn ∈ live w →
       live (world (ClientManager.step w (Register conn) s)) = live w
       ∧ (∀ c, flags (world (ClientManager.step w (Register conn) s)) c = flags w c)
       ∧ (∀ c, closes_of c (log (ClientManager.step w (Register conn) s)) = 0))
  ∧ (∀ w conn s,
       conn ∉ live w →
       ClientManager.step w (Unregister conn) s = mkOutcome Done w []).
Proof.
  split_and!.
  - intros h evs Hnb Hd c. rewrite (start_live_fold _ _ Hnb Hd), live_fold_spec.
    unfold manager, live. simpl. rewrite dom_empty_L. set_solver.
  - intros w conn s Hin.
    destruct (register_frame w conn s) as (H1 & H2 & H3). split_and!; [|done|].
    + unfold live in *. rewrite H1, dom_insert_L. set_solver.
    + intros c. by apply closes_of_none.
  - intros w conn s. apply unregister_absent.
Qed.

(** C3 on the session: A, B, C register, B unregisters twice and A
    registers again. *)
Lemma live_set_registered_not_unregistered_witness :
  let evs := (Session.register_abc
              ++ [ (Unregister Session.B, Session.all_ready [Session.C; Session.A]);
                   (Unregister Session.B, Session.all_ready [Session.C; Session.A]);
                   (Register Session.A, Session.all_ready [Session.C; Session.A]) ]) in
  let w := world (ClientManager.start (manager Session.heap_abc) evs) in
  (Session.B ∈ live w ↔ registered_last Session.B evs.*1)
  ∧ (Session.A ∈ live w ↔ registered_last Session.A evs.*1)
  ∧ live (world (ClientManager.step Session.world_abc (Register Session.A)
                   (Session.all_ready [Session.C; Session.B; Session.A])))
    = live Session.world_abc
  ∧ ClientManager.step (manager Session.heap_abc) (Unregister Session.B)
      (Session.all_ready [])
    = mkOutcome Done (manager Session.heap_abc) [].
Proof.
  intros evs w.
  destruct live_set_registered_not_unregistered as (H1 & H2 & H3).
  split_and!.
  - apply (H1 Session.heap_abc evs);
      [repeat constructor | vm_compute; reflexivity].
  - apply (H1 Session.heap_abc evs);
      [repeat constructor | vm_compute; reflexivity].
  - apply H2. vm_compute. reflexivity.
  - apply H3. vm_compute. intros H. discriminate H.
Defined.

(** ** Membership and open queues *)

(** C8: in every state that the control loop reaches from the initial
    manager -- between two events, or waiting in the send of an
    announcement -- a connection that was registered is in the live set if
    and only if its queue is open; in particular no member has a closed
    queue.  The loop never panics.  The run is one the program can produce:
    the connections that arrive on [register] have open queues. *)
Theorem live_iff_open h evs :
  run_ok (manager h) evs →
  status (ClientManager.start (manager h) evs) ≠ Panicked
  ∧ members_open (world (ClientManager.start (manager h) evs))
  ∧ (∀ c, c ∈ registered (taken (manager h) evs) →
          (c ∈ live (world (ClientManager.start (manager h) evs))
           ↔ is_open (world (ClientManager.start (manager h) evs)) c)).
Proof.
  intros Hok.
  destruct (start_inv ∅ (manager h) evs) as (Hnp & Hm & Hs); [|done|].
  { split; intros c Hc; by apply not_elem_of_empty in Hc. }
  split_and!; [done..|].
  intros c Hc. split; [apply Hm|].
  intros Ho. destruct (decide (c ∈ live (world (ClientManager.start (manager h) evs))))
    as [|Hn]; [done|].
  destruct (open_not_closed _ _ Ho). apply Hs; [set_solver|done].
Qed.

(** C8 on the session: A, B, C register, a broadcast finds the pump of B
    busy, then C unregisters. *)
Lemma live_iff_open_witness :
  let evs := Session.register_abc
             ++ [ (Broadcast "x", Session.all_but Session.B [Session.C; Session.B; Session.A]);
                  (Unregister Session.C, Session.all_ready [Session.A]) ] in
  let w := world (ClientManager.start (manager Session.heap_abc) evs) in
  (Session.A ∈ live w ↔ is_open w Session.A)
  ∧ (Session.B ∈ live w ↔ is_open w Session.B)
  ∧ (Session.C ∈ live w ↔ is_open w Session.C)
  ∧ Session.A ∈ live w ∧ (Session.B ∉ live w) ∧ (Session.C ∉ live w).
Proof.
  intros evs w.
  assert (Hok : run_ok (manager Session.heap_abc) evs).
  { simpl. unfold ClientManager.sched_ok. Session.crunch. }
  destruct (live_iff_open Session.heap_abc evs Hok) as (_ & _ & H).
  split_and!.
  - apply H. vm_compute. reflexivity.
  - apply H. vm_compute. reflexivity.
  - apply H. vm_compute. reflexivity.
  - vm_compute. reflexivity.
  - vm_compute. intros E. discriminate E.
  - vm_compute. intros E. discriminate E.
Defined.

(** The assumption on the events is needed.  A connection that is sent on
    [register] again after its queue was closed -- which [wsPage] never
    does -- becomes a member with a closed queue, and unregistering it
    once more closes a closed channel: the control loop panics. *)
Example reregistered_closed_connection :
  let evs := [ (Register Session.A, Session.all_ready [Session.A]);
               (Unregister Session.A, Session.all_ready []);
               (Register Session.A, Session.all_ready [Session.A]) ] in
  let o := ClientManager.start (manager Session.heap_abc) evs in
  status o = Done
  ∧ Session.A ∈ live (world o) ∧ is_closed (world o) Session.A
  ∧ status (ClientManager.step (world o) (Unregister Session.A)
              (Session.all_ready [])) = Panicked.
Proof. intros evs o. Session.crunch. Qed.

(** ** Eviction of a saturated recipient *)

(** C5: when a Broadcast event is processed and the queue of a member [r]
    takes nothing at that moment, the processing ends, and at its end [r]
    is out of the live set, its queue is closed and was closed once; what
    the loop sent is the broadcast payload, at most once per connection and
    not to [r]: no notice of the departure is sent. *)
Theorem saturated_recipient_is_evicted w m s r :
  members_open w → ClientManager.sched_ok w (Broadcast m) s →
  r ∈ live w → accepts w (ready s) r = false →
  status (ClientManager.step w (Broadcast m) s) = Done
  ∧ (r ∉ live (world (ClientManager.step w (Broadcast m) s)))
  ∧ is_closed (world (ClientManager.step w (Broadcast m) s)) r
  ∧ closes_of r (log (ClientManager.step w (Broadcast m) s)) = 1
  ∧ deliveries_to r (log (ClientManager.step w (Broadcast m) s)) = []
  ∧ (∀ c, deliveries_to c (log (ClientManager.step w (Broadcast m) s)) = [m]
          ∨ deliveries_to c (log (ClientManager.step w (Broadcast m) s)) = []).
Proof.
  intros Hm Hsc Hr Ha.
  destruct (broadcast_spec w m s Hm Hsc) as (H1 & H2 & H3 & H4 & H5).
  split_and!; [done| | | | |].
  - rewrite H2. intros [_ E]. congruence.
  - by apply H3.
  - rewrite H5, Ha. by rewrite bool_decide_eq_true_2.
  - rewrite H4, Ha. by rewrite andb_false_r.
  - intros c. rewrite H4. destruct (_ && _); [by left|by right].
Qed.

(** C5 on the session: the pump of B is busy when "x" is broadcast. *)
Lemma saturated_recipient_is_evicted_witness :
  let s := Session.all_but Session.B [Session.C; Session.B; Session.A] in
  let o := ClientManager.step Session.world_abc (Broadcast "x") s in
  status o = Done ∧ (Session.B ∉ live (world o)) ∧ is_closed (world o) Session.B
  ∧ closes_of Session.B (log o) = 1
  ∧ log o = [Delivered Session.C "x"; Closed Session.B; Delivered Session.A "x"].
Proof.
  intros s o.
  destruct (saturated_recipient_is_evicted Session.world_abc "x" s Session.B)
    as (H1 & H2 & H3 & H4 & _).
  - apply session_world_open.
  - vm_compute. reflexivity.
  - vm_compute. reflexivity.
  - vm_compute. reflexivity.
  - split_and!; [done..|]. vm_compute. reflexivity.
Defined.

(** ** Unbuffered queues *)

(** C9: the client that [wsPage] constructs has a queue of capacity zero.
    For a member with such a queue, a broadcast goes through exactly when
    its write pump is parked on the queue at that instant; otherwise the
    queue counts as full and the member is evicted. *)
Theorem queue_capacity_is_zero conn uuid self h w m s :
  heap w !! self = (wsPage (Some conn) (inl uuid) self h).1 !! self →
  members_open w → ClientManager.sched_ok w (Broadcast m) s → self ∈ live w →
  (cap <$> ClientManager.queue w self) = Some 0
  ∧ accepts w (ready s) self = ready s self
  ∧ (self ∈ live (world (ClientManager.step w (Broadcast m) s))
     ↔ ready s self = true)
  ∧ deliveries_to self (log (ClientManager.step w (Broadcast m) s))
    = if ready s self then [m] else [].
Proof.
  intros Hh Hm Hsc Hl. simpl in Hh. rewrite lookup_insert_eq in Hh.
  assert (Hq : ClientManager.queue w self = Some (make_chan 0)).
  { unfold ClientManager.queue. by rewrite Hh. }
  assert (Ha : accepts w (ready s) self = ready s self).
  { unfold accepts. rewrite Hq. simpl. by rewrite orb_false_r. }
  destruct (broadcast_spec w m s Hm Hsc) as (_ & H2 & _ & H4 & _).
  split_and!; [by rewrite Hq|done| |].
  - rewrite H2, Ha. naive_solver.
  - by rewrite H4, Ha, bool_decide_eq_true_2.
Qed.

(** C9 on the session: C was constructed by [wsPage]; its pump is busy. *)
Lemma queue_capacity_is_zero_witness :
  let s := Session.all_but Session.C [Session.C; Session.B; Session.A] in
  let o := ClientManager.step Session.world_abc (Broadcast "x") s in
  (cap <$> ClientManager.queue Session.world_abc Session.C) = Some 0
  ∧ (Session.C ∈ live (world o) ↔ false = true)
  ∧ deliveries_to Session.C (log o) = [].
Proof.
  intros s o.
  destruct (queue_capacity_is_zero 12 "c-id" Session.C
              (wsPage (Some 11) (inl "b-id") Session.B
                 (wsPage (Some 10) (inl "a-id") Session.A ∅).1).1
              Session.world_abc "x" s) as (H1 & _ & H3 & H4).
  - vm_compute. reflexivity.
  - apply session_world_open.
  - vm_compute. reflexivity.
  - vm_compute. reflexivity.
  - split_and!; [exact H1|exact H3|exact H4].
Defined.

(** ** The announce path waits *)

(** C2, as the code has it: on the announce path the send is a blocking
    one.  When a notice is due to a member [r] whose queue takes nothing,
    the control loop does not get to the end of the event: it waits in a
    send on a queue that takes nothing, while [r] stays in the live set
    with its queue open and is not closed.  This holds for the notice of a
    registration and for the notice of a departure. *)
Theorem announce_path_blocks w conn s r :
  members_open w → r ∈ live w → r ≠ conn → accepts w (ready s) r = false →
  (is_open w conn → ClientManager.sched_ok w (Register conn) s →
   (∃ c, status (ClientManager.step w (Register conn) s) = Blocked c
         ∧ ready s c = false)
   ∧ r ∈ live (world (ClientManager.step w (Register conn) s))
   ∧ is_open (world (ClientManager.step w (Register conn) s)) r
   ∧ closes_of r (log (ClientManager.step w (Register conn) s)) = 0)
  ∧ (conn ∈ live w → ClientManager.sched_ok w (Unregister conn) s →
     (∃ c, status (ClientManager.step w (Unregister conn) s) = Blocked c
           ∧ ready s c = false)
     ∧ r ∈ live (world (ClientManager.step w (Unregister conn) s))
     ∧ is_open (world (ClientManager.step w (Unregister conn) s)) r
     ∧ closes_of r (log (ClientManager.step w (Unregister conn) s)) = 0).
Proof.
  intros Hm Hr Hne Ha.
  assert (Hblocked : ∀ o : Outcome,
            status o ≠ Done → status o ≠ Panicked →
            (∀ c, status o = Blocked c → ready s c = false) →
            ∃ c, status o = Blocked c ∧ ready s c = false).
  { intros o Hd Hp Hb. destruct (status o) as [|c|] eqn:E; [done| |done].
    exists c. split; [done|]. by apply Hb. }
  assert (Hinv : hub_inv ∅ w).
  { split; [done|]. intros c Hc. by apply not_elem_of_empty in Hc. }
  split.
  - intros Ho Hsc.
    destruct (register_frame w conn s) as (H1 & H2 & H3).
    split_and!.
    + apply Hblocked.
      * simpl. unfold ClientManager.on_register.
        apply (send_stuck _ _ _ _ _ r); [|done..].
        apply (sched_ok_elem _ _ _ _ Hsc). simpl. set_solver.
      * by apply (step_inv ∅ w (Register conn) s).
      * simpl. unfold ClientManager.on_register. intros c Hc.
        eapply send_no_panic; [|done].
        intros c' Hc' Hne'. apply is_open_flags. rewrite flags_set_clients.
        apply is_open_flags, Hm. apply (sched_ok_elem _ _ _ _ Hsc) in Hc'.
        simpl in Hc'. set_solver.
    + unfold live in *. rewrite H1, dom_insert_L. set_solver.
    + apply is_open_flags. rewrite H2. by apply is_open_flags, Hm.
    + by apply closes_of_none.
  - intros Hin Hsc.
    destruct (unregister_member w conn s Hin (Hm _ Hin))
      as (H1 & _ & H3 & _ & H4 & H5).
    split_and!.
    + apply Hblocked.
      * rewrite H5. apply (send_stuck _ _ _ _ _ r); [|done|].
        -- apply (sched_ok_elem _ _ _ _ Hsc). simpl. set_solver.
        -- unfold accepts. rewrite queue_set_clients.
           by rewrite queue_set_queue_ne.
      * by apply (step_inv ∅ w (Unregister conn) s).
      * rewrite H5. intros c Hc. eapply send_no_panic; [|done].
        intros c' Hc' Hne'. apply is_open_flags.
        rewrite flags_set_clients, flags_set_queue_ne by done.
        apply is_open_flags, Hm. apply (sched_ok_elem _ _ _ _ Hsc) in Hc'.
        simpl in Hc'. set_solver.
    + unfold live in *. rewrite H1, dom_delete_L. set_solver.
    + apply is_open_flags. rewrite H3 by done. by apply is_open_flags, Hm.
    + by apply H4.
Qed.

(** C2 on the session: A and B are registered and the pump of A is busy
    when C registers.  B gets the notice, then the loop waits on A. *)
Lemma announce_path_blocks_witness :
  let w := world (ClientManager.start (manager Session.heap_abc)
                    [ (Register Session.A, Session.all_ready [Session.A]);
                      (Register Session.B, Session.all_ready [Session.B; Session.A]) ]) in
  let s := Session.all_but Session.A [Session.C; Session.B; Session.A] in
  let o := ClientManager.step w (Register Session.C) s in
  status o = Blocked Session.A
  ∧ Session.A ∈ live (world o) ∧ is_open (world o) Session.A
  ∧ closes_of Session.A (log o) = 0.
Proof.
  intros w s o.
  assert (Hm : members_open w).
  { apply session_run_open. simpl. unfold ClientManager.sched_ok. Session.crunch. }
  destruct (announce_path_blocks w Session.C s Session.A Hm) as [H _].
  - vm_compute. reflexivity.
  - done.
  - vm_compute. reflexivity.
  - destruct H as (_ & H2 & H3 & H4).
    + Session.crunch.
    + vm_compute. reflexivity.
    + split_and!; [vm_compute; reflexivity|done..].
Defined.

(** ** The scenario: A, B and C register, then A sends "hi" *)

Section scenario.
Import ClientManager.

(** A registration whose notices are all taken. *)
Lemma register_done w conn s :
  (∀ c, c ∈ order s → c ≠ conn → is_open w c ∧ ready s c = true) →
  step w (Register conn) s
  = mkOutcome Done (set_clients (<[conn := true]> (clients w)) w)
      ((fun c => Delivered c (Marshal (mkMessage EmptyString EmptyString "/A new socket has connected")))
         <$> filter (fun c => c ≠ conn) (order s)).
Proof. intros H. simpl. unfold on_register. by rewrite send_done. Qed.

Lemma start_cons_done w ev s rest w' l :
  step w ev s = mkOutcome Done w' l →
  start w ((ev, s) :: rest)
  = mkOutcome (status (start w' rest)) (world (start w' rest))
      (l ++ log (start w' rest)).
Proof. intros H. simpl. by rewrite H. Qed.

Lemma sched_ok_of_perm w ev s (keys : list ptr) :
  NoDup keys → order s ≡ₚ keys → (∀ c, c ∈ keys ↔ c ∈ range_keys w ev) →
  sched_ok w ev s.
Proof.
  intros Hnd Hp Hk. unfold sched_ok. rewrite Hp.
  apply NoDup_Permutation; [done|apply NoDup_elements|].
  intros c. by rewrite elem_of_elements.
Qed.

End scenario.

(** C1, as the code has it: after A, B and C have registered in this order
    (the pumps taking the notices of the registrations), the inbound pump
    of A turns the text "hi" into one Broadcast event whose payload is the
    serialised envelope with A's identity as sender and "hi" as content;
    processing that event delivers the payload exactly once to each of A,
    B and C whose write pump is ready at that instant -- the sender A
    included -- and to no other connection. *)
Theorem relay_reaches_every_ready_member
  h (a b c : ptr) (idA : string) (sockA : nat) (s1 s2 s3 s4 : Sched) :
  h !! a = Some (Client.mk idA sockA (make_chan 0)) →
  Client.send <$> h !! b = Some (make_chan 0) →
  Client.send <$> h !! c = Some (make_chan 0) →
  a ≠ b → a ≠ c → b ≠ c →
  order s1 ≡ₚ [a] → order s2 ≡ₚ [a; b] → order s3 ≡ₚ [a; b; c] →
  order s4 ≡ₚ [a; b; c] →
  ready s2 a = true → ready s3 a = true → ready s3 b = true →
  let hi := Marshal (mkMessage idA EmptyString "hi") in
  let o3 := ClientManager.start (manager h)
              [(Register a, s1); (Register b, s2); (Register c, s3)] in
  let o := ClientManager.step (world o3) (Broadcast hi) s4 in
  Client.read a (Client.mk idA sockA (make_chan 0)) [inl "hi"]
  = ([ToBroadcast hi], Parked)
  ∧ status o3 = Done
  ∧ status o = Done
  ∧ (∀ x, deliveries_to x (log o)
          = if bool_decide (x ∈ [a; b; c]) && ready s4 x then [hi] else []).
Proof.
  intros Ha Hb Hc Hab Hac Hbc Hs1 Hs2 Hs3 Hs4 R2a R3a R3b hi o3 o.
  assert (Hq : ∀ w x, heap w = h → x ∈ [a; b; c] →
            ClientManager.queue w x = Some (make_chan 0)).
  { intros w x Hw Hx. unfold ClientManager.queue. rewrite Hw.
    rewrite !elem_of_cons in Hx. destruct Hx as [->|[->|[->|Hx]]];
      [by rewrite Ha|done|done|by apply elem_of_nil in Hx]. }
  assert (Ho : ∀ w x, heap w = h → x ∈ [a; b; c] → is_open w x).
  { intros w x Hw Hx. exists (make_chan 0). split; [by apply Hq|done]. }
  assert (E3 : o3 = mkOutcome Done
                 (mkWorld (<[c := true]> (<[b := true]> (<[a := true]> ∅))) h)
                 (log o3)).
  { unfold o3.
    erewrite start_cons_done; [|apply register_done].
    2:{ intros x Hx Hne. rewrite Hs1 in Hx. set_solver. }
    erewrite start_cons_done; [|apply register_done].
    2:{ intros x Hx Hne. rewrite Hs2 in Hx.
        assert (x = a) as -> by set_solver.
        split; [apply Ho; [done|set_solver]|done]. }
    erewrite start_cons_done; [|apply register_done].
    2:{ intros x Hx Hne. rewrite Hs3 in Hx.
        assert (x = a ∨ x = b) as [-> | ->] by set_solver;
          (split; [apply Ho; [done|set_solver]|done]). }
    done. }
  set (w3 := mkWorld (<[c := true]> (<[b := true]> (<[a := true]> ∅))) h) in *.
  assert (Hlive : ∀ x, x ∈ live w3 ↔ x ∈ [a; b; c]).
  { intros x. unfold live, w3. simpl. rewrite !dom_insert_L, dom_empty_L. set_solver. }
  assert (Hw : world o3 = w3) by (by rewrite E3).
  assert (Hm : members_open w3).
  { intros x Hx. apply Ho; [done|]. by apply Hlive. }
  assert (Hsc : ClientManager.sched_ok w3 (Broadcast hi) s4).
  { apply (sched_ok_of_perm _ _ _ [a; b; c]); [|done|].
    - repeat constructor; set_solver.
    - intros x. simpl. symmetry. apply Hlive. }
  split_and!; [done|by rewrite E3| |].
  - unfold o. rewrite Hw. by apply broadcast_spec.
  - intros x. unfold o. rewrite Hw.
    destruct (broadcast_spec w3 hi s4 Hm Hsc) as (_ & _ & _ & H4 & _).
    rewrite H4. rewrite (bool_decide_ext _ _ (Hlive x)).
    case_bool_decide as Hx; [|done]. simpl.
    unfold accepts. rewrite (Hq w3 x eq_refl Hx). simpl. by rewrite orb_false_r.
Qed.

(** C1 on the session, with every pump ready: each of A, B and C gets the
    envelope. *)
Lemma relay_reaches_every_ready_member_witness :
  let hi := Marshal (mkMessage "a-id" EmptyString "hi") in
  let o := ClientManager.step Session.world_abc (Broadcast hi)
             (Session.all_ready [Session.C; Session.B; Session.A]) in
  status o = Done
  ∧ (∀ x, deliveries_to x (log o)
          = if bool_decide (x ∈ [Session.A; Session.B; Session.C]) && true
            then [hi] else []).
Proof.
  intros hi o.
  destruct (relay_reaches_every_ready_member Session.heap_abc
              Session.A Session.B Session.C "a-id" 10
              (Session.all_ready [Session.A])
              (Session.all_ready [Session.B; Session.A])
              (Session.all_ready [Session.C; Session.B; Session.A])
              (Session.all_ready [Session.C; Session.B; Session.A]))
    as (_ & _ & H3 & H4).
  - vm_compute. reflexivity.
  - vm_compute. reflexivity.
  - vm_compute. reflexivity.
  - vm_compute. intros E. discriminate E.
  - vm_compute. intros E. discriminate E.
  - vm_compute. intros E. discriminate E.
  - reflexivity.
  - simpl. apply perm_swap.
  - symmetry. apply (Permutation_rev [Session.A; Session.B; Session.C]).
  - symmetry. apply (Permutation_rev [Session.A; Session.B; Session.C]).
  - reflexivity.
  - reflexivity.
  - reflexivity.
  - split; [exact H3|exact H4].
Defined.

(** C1 as stated fails: with every pump ready, the sender A receives its
    own message. *)
Lemma sender_receives_own_message :
  let hi := Marshal (mkMessage "a-id" EmptyString "hi") in
  Client.read Session.A (Client.mk "a-id" 10 (make_chan 0)) [inl "hi"]
  = ([ToBroadcast hi], Parked)
  ∧ deliveries_to Session.A
      (log (ClientManager.step Session.world_abc (Broadcast hi)
              (Session.all_ready [Session.C; Session.B; Session.A])))
    = [hi]
  ∧ deliveries_to Session.A
      (log (ClientManager.step Session.world_abc (Broadcast hi)
              (Session.all_ready [Session.C; Session.B; Session.A])))
    ≠ [].
Proof. split_and!; [vm_compute; reflexivity..|]. vm_compute. intros E. discriminate E. Qed.

(** ** The wire envelope *)

(** The tag of [Sender] is not in the conventional format, so the encoder
    finds no [json] key in it. *)
Lemma Sender_tag_not_found :
  StructTag.Lookup ("json: " +:+ quoted "sender,omitempty") "json" = None.
Proof. reflexivity. Qed.

(** The fields the encoder writes: [Sender] under its Go name and always,
    the other two under their tag names and only when not empty. *)
Lemma Message_fields_eq m :
  Message_fields m
  = [ (json.mkField "Sender" false, Sender m);
      (json.mkField "recipient" true, Recipient m);
      (json.mkField "content" true, Content m) ].
Proof. reflexivity. Qed.

(** The serialised form of an envelope without recipient. *)
Lemma Marshal_no_recipient sender content :
  Marshal (mkMessage sender EmptyString content)
  = "{" +:+ json.appendString "Sender" +:+ ":" +:+ json.appendString sender
    +:+ (if decide (content = EmptyString) then EmptyString
         else "," +:+ json.appendString "content" +:+ ":"
              +:+ json.appendString content)
    +:+ "}".
Proof.
  unfold Marshal. rewrite Message_fields_eq. destruct content; reflexivity.
Qed.

(** C6, as the code has it: the two system notices are serialised with a
    sender field, holding the empty string; the notices that the register
    and unregister cases deliver are these byte strings.  A relayed message
    carries the identity of its origin under the same key. *)
Theorem notices_carry_empty_sender w conn s c m :
  (Delivered c m ∈ log (ClientManager.step w (Register conn) s) →
   m = "{" +:+ quoted "Sender" +:+ ":" +:+ quoted EmptyString
       +:+ "," +:+ quoted "content" +:+ ":" +:+ quoted "/A new socket has connected"
       +:+ "}")
  ∧ (Delivered c m ∈ log (ClientManager.step w (Unregister conn) s) →
     m = "{" +:+ quoted "Sender" +:+ ":" +:+ quoted EmptyString
         +:+ "," +:+ quoted "content" +:+ ":" +:+ quoted "/A socket has disconnected"
         +:+ "}")
  ∧ Marshal (mkMessage "a-id" EmptyString "hi")
    = "{" +:+ quoted "Sender" +:+ ":" +:+ quoted "a-id"
      +:+ "," +:+ quoted "content" +:+ ":" +:+ quoted "hi" +:+ "}".
Proof.
  split_and!; [| |reflexivity].
  - simpl. unfold ClientManager.on_register. intros H.
    match type of H with context [ClientManager.send ?m ?ig ?rd ?ks ?w'] =>
      destruct (send_frame m ig rd ks w') as (_ & _ & H3) end.
    destruct (H3 _ H) as (c' & E & _). injection E as _ ->. reflexivity.
  - simpl. unfold ClientManager.on_unregister. intros H.
    destruct (clients w !! conn); [|by apply elem_of_nil in H].
    destruct (ClientManager.queue w conn); [|by apply elem_of_nil in H].
    destruct (closechan _); [|by apply elem_of_nil in H].
    simpl in H. apply elem_of_cons in H as [H|H]; [done|].
    match type of H with context [ClientManager.send ?m ?ig ?rd ?ks ?w'] =>
      destruct (send_frame m ig rd ks w') as (_ & _ & H3) end.
    destruct (H3 _ H) as (c' & E & _). injection E as _ ->. reflexivity.
Qed.

(** C6 on the session: the notice that A and B get when C registers. *)
Lemma notices_carry_empty_sender_witness :
  log (ClientManager.step
         (world (ClientManager.start (manager Session.heap_abc)
                   [ (Register Session.A, Session.all_ready [Session.A]);
                     (Register Session.B, Session.all_ready [Session.B; Session.A]) ]))
         (Register Session.C) (Session.all_ready [Session.C; Session.B; Session.A]))
  = [ Delivered Session.B
        ("{" +:+ quoted "Sender" +:+ ":" +:+ quoted EmptyString
         +:+ "," +:+ quoted "content" +:+ ":" +:+ quoted "/A new socket has connected"
         +:+ "}");
      Delivered Session.A
        ("{" +:+ quoted "Sender" +:+ ":" +:+ quoted EmptyString
         +:+ "," +:+ quoted "content" +:+ ":" +:+ quoted "/A new socket has connected"
         +:+ "}") ]
  ∧ Marshal (mkMessage EmptyString EmptyString "/A new socket has connected")
    = "{" +:+ quoted "Sender" +:+ ":" +:+ quoted EmptyString
      +:+ "," +:+ quoted "content" +:+ ":" +:+ quoted "/A new socket has connected"
      +:+ "}".
Proof.
  split; [vm_compute; reflexivity|].
  eapply (proj1 (notices_carry_empty_sender
                   (world (ClientManager.start (manager Session.heap_abc)
                      [ (Register Session.A, Session.all_ready [Session.A]);
                        (Register Session.B, Session.all_ready [Session.B; Session.A]) ]))
                   Session.C (Session.all_ready [Session.C; Session.B; Session.A])
                   Session.B _)).
  vm_compute. left.
Defined.

(** ** The pumps *)

Section pump_facts.

Lemma read_loop_forwarded self cli (msgs : list bytes) err rest :
  Client.read_loop self cli ((inl <$> msgs) ++ inr err :: rest)
  = (((fun m => ToBroadcast (Marshal (mkMessage (Client.id cli) EmptyString m))) <$> msgs)
     ++ [ToUnregister self; SocketClose (Client.socket cli)], true).
Proof.
  induction msgs as [|m msgs IH]; [done|].
  rewrite !fmap_cons, <- !app_comm_cons. cbn [Client.read_loop]. by rewrite IH.
Qed.

Lemma read_loop_broadcasts self cli reads :
  broadcasts (Client.read_loop self cli reads).1
  = (fun m => Marshal (mkMessage (Client.id cli) EmptyString m)) <$> forwarded reads.
Proof.
  induction reads as [|[m|err] rest IH]; simpl; [done| |done].
  destruct (Client.read_loop self cli rest) as [acts broke]. simpl in *.
  unfold broadcasts in *. simpl. by rewrite IH.
Qed.

Lemma broadcasts_app l1 l2 : broadcasts (l1 ++ l2) = broadcasts l1 ++ broadcasts l2.
Proof. unfold broadcasts. apply omap_app. Qed.

Lemma write_loop_failure cli (msgs : list bytes) m err rest :
  Client.write_loop cli (((fun x => (x, None)) <$> msgs) ++ (m, Some err) :: rest)
  = ((WriteMessage (Client.socket cli) TextMessage <$> msgs)
     ++ [WriteMessage (Client.socket cli) TextMessage m;
         Println ("Error writing message to socket: " +:+ err)], true).
Proof.
  induction msgs as [|x msgs IH]; [done|].
  rewrite !fmap_cons, <- !app_comm_cons. cbn [Client.write_loop]. by rewrite IH.
Qed.

End pump_facts.

(** C10: whatever bytes the socket yields, the payloads that the inbound
    pump hands to the control loop are, in order, the serialisations of the
    envelopes whose sender is the identity of the client, whose content is
    the bytes as text and whose recipient is empty, one for each message
    read before the first read error.  The serialised envelope has the
    sender, then the content as one JSON string when it is not empty, and
    no recipient: the inbound bytes are not parsed. *)
Theorem read_wraps_raw_bytes self cli reads :
  broadcasts (Client.read self cli reads).1
  = (fun m => Marshal (mkMessage (Client.id cli) EmptyString m)) <$> forwarded reads
  ∧ (∀ m, Marshal (mkMessage (Client.id cli) EmptyString m)
          = "{" +:+ json.appendString "Sender" +:+ ":"
            +:+ json.appendString (Client.id cli)
            +:+ (if decide (m = EmptyString) then EmptyString
                 else "," +:+ json.appendString "content" +:+ ":"
                      +:+ json.appendString m)
            +:+ "}").
Proof.
  split; [|intros m; apply Marshal_no_recipient].
  unfold Client.read. rewrite <- (read_loop_broadcasts self).
  destruct (Client.read_loop self cli reads) as [acts [|]]; simpl; [|done].
  rewrite broadcasts_app. simpl. by rewrite app_nil_r.
Qed.

(** An envelope sent by a client, recipient included, travels as the
    content of the envelope that the pump builds. *)
Example read_ignores_inbound_recipient :
  Client.read Session.A (Client.mk "a-id" 10 (make_chan 0))
    [inl ("{" +:+ quoted "recipient" +:+ ":" +:+ quoted "b-id" +:+ "}")]
  = ([ToBroadcast ("{" +:+ quoted "Sender" +:+ ":" +:+ quoted "a-id" +:+ ","
                   +:+ quoted "content" +:+ ":"
                   +:+ quoted ("{\" +:+ quoted "recipient\" +:+ ":\"
                               +:+ quoted "b-id\" +:+ "}")
                   +:+ "}")], Parked).
Proof. vm_compute. reflexivity. Qed.

(** C4, as the code has it: when a read fails, after the broadcasts of the
    messages read so far, the inbound pump sends Unregister(self) and
    closes the socket in the error branch, leaves the loop, and sends
    Unregister(self) and closes the socket once more in its deferred
    function; then it has exited. *)
Theorem read_failure_unregisters_twice self cli (msgs : list bytes) err rest :
  Client.read self cli ((inl <$> msgs) ++ inr err :: rest)
  = (((fun m => ToBroadcast (Marshal (mkMessage (Client.id cli) EmptyString m))) <$> msgs)
     ++ [ ToUnregister self; SocketClose (Client.socket cli);
          ToUnregister self; SocketClose (Client.socket cli) ], Exited)
  ∧ unregisters self (Client.read self cli ((inl <$> msgs) ++ inr err :: rest)).1 = 2.
Proof.
  unfold Client.read. rewrite read_loop_forwarded. simpl.
  rewrite <- app_assoc. split; [done|].
  unfold unregisters. rewrite filter_app, length_app.
  assert (length (filter (fun a => a = ToUnregister self)
            ((fun m => ToBroadcast (Marshal (mkMessage (Client.id cli) EmptyString m)))
               <$> msgs)) = 0) as ->.
  { induction msgs as [|m' msgs IH]; [done|].
    rewrite fmap_cons, filter_cons_False by done. apply IH. }
  change ([ToUnregister self; SocketClose (Client.socket cli)]
          ++ [ToUnregister self; SocketClose (Client.socket cli)])
    with [ToUnregister self; SocketClose (Client.socket cli);
          ToUnregister self; SocketClose (Client.socket cli)].
  rewrite filter_cons_True by done. rewrite filter_cons_False by done.
  rewrite filter_cons_True by done. by rewrite filter_cons_False by done.
Qed.

(** C4 as stated fails: on a read error the pump sends Unregister(self)
    twice, not once. *)
Lemma read_failure_sends_two_unregisters :
  (Client.read Session.A (Client.mk "a-id" 10 (make_chan 0)) [inr "EOF"]).1
  = [ToUnregister Session.A; SocketClose 10; ToUnregister Session.A; SocketClose 10]
  ∧ unregisters Session.A
      (Client.read Session.A (Client.mk "a-id" 10 (make_chan 0)) [inr "EOF"]).1 ≠ 1.
Proof. split; [reflexivity|]. vm_compute. intros E. discriminate E. Qed.

(** The second Unregister finds the connection gone and does nothing. *)
Lemma second_unregister_is_noop w self s s' :
  members_open w → self ∈ live w →
  ClientManager.step (world (ClientManager.step w (Unregister self) s))
    (Unregister self) s'
  = mkOutcome Done (world (ClientManager.step w (Unregister self) s)) [].
Proof.
  intros Hm Hin. apply unregister_absent.
  destruct (unregister_member w self s Hin (Hm _ Hin)) as (H1 & _).
  unfold live. rewrite H1, dom_delete_L. set_solver.
Qed.

(** C7, as the code has it: when the write of a message fails, after the
    writes of the messages before it, the outbound pump logs the error and
    leaves the loop; it writes none of the messages that are still queued,
    sends nothing to the control loop, but does write the close message to
    the socket; then it closes the socket and has exited. *)
Theorem write_failure_still_writes_close cli (msgs : list bytes) m err rest closed_after :
  Client.write cli (((fun x => (x, None)) <$> msgs) ++ (m, Some err) :: rest)
    closed_after
  = ((WriteMessage (Client.socket cli) TextMessage <$> msgs)
     ++ [ WriteMessage (Client.socket cli) TextMessage m;
          Println ("Error writing message to socket: " +:+ err);
          WriteMessage (Client.socket cli) CloseMessage EmptyString;
          SocketClose (Client.socket cli) ], Exited).
Proof.
  unfold Client.write. rewrite write_loop_failure. simpl.
  by rewrite <- app_assoc.
Qed.

(** C7 as stated fails: the first write, of "m", fails, and the writes
    to the socket do not end there: the pump writes the close message. *)
Lemma write_failure_is_followed_by_a_write :
  Client.write (Client.mk "a-id" 10 (make_chan 0))
    [("m", Some "broken pipe"); ("n", None)] false
  = ([ WriteMessage 10 TextMessage "m";
       Println "Error writing message to socket: broken pipe";
       WriteMessage 10 CloseMessage EmptyString;
       SocketClose 10 ], Exited)
  ∧ socket_writes
      (Client.write (Client.mk "a-id" 10 (make_chan 0))
         [("m", Some "broken pipe"); ("n", None)] false).1
    = [ WriteMessage 10 TextMessage "m"; WriteMessage 10 CloseMessage EmptyString ]
  ∧ drop 1 (socket_writes
              (Client.write (Client.mk "a-id" 10 (make_chan 0))
                 [("m", Some "broken pipe"); ("n", None)] false).1) ≠ [].
Proof.
  split_and!; [vm_compute; reflexivity..|].
  vm_compute. intros E. discriminate E.
Qed.

(** * Further properties of the control loop *)

(** Checks the assumptions on a concrete run by evaluation. *)
Ltac check_run :=
  vm_compute;
  repeat match goal with
         | |- _ ∧ _ => split
         | |- _ → _ => intros _
         | |- True => exact I
         | |- ∃ _, _ => eexists; split; reflexivity
         | |- _ ≡ₚ _ => reflexivity
         end.

(** ** What the loops leave alone *)
Section frames.
Import ClientManager.

Lemma identity_set_queue w c ch c' : identity (set_queue c ch w) c' = identity w c'.
Proof.
  unfold identity, set_queue. simpl. destruct (decide (c = c')) as [->|Hne].
  - rewrite lookup_alter_eq. by destruct (heap w !! c').
  - by rewrite lookup_alter_ne.
Qed.

Lemma send_identity m ig rd keys w c :
  identity (world (send m ig rd keys w)) c = identity w c.
Proof.
  revert w. induction keys as [|conn rest IH]; intros w; simpl; [done|].
  destruct (decide (conn = ig)); [apply IH|].
  destruct (queue w conn) as [ch|]; [|done].
  destruct (chansend ch (rd conn) m) as [ch'| |]; simpl; [|done..].
  by rewrite IH, identity_set_queue.
Qed.

Lemma flags_step_trans f1 f2 f3 :
  flags_step f1 f2 → flags_step f2 f3 → flags_step f1 f3.
Proof.
  intros [->|(n & -> & ->)] [->|(n' & E & ->)]; [by left| |right; by eexists|];
    [right; by eexists|simplify_eq].
Qed.

Lemma closechan_Some ch ch' :
  closechan ch = Some ch' →
  closed ch = false ∧ ch' = mkChan (cap ch) (buf ch) true.
Proof. unfold closechan. destruct (closed ch); [done|]. by intros [= <-]. Qed.

(** The fan-out loop, whatever the state of the queues: it delivers the
    message and nothing else, to keys only; it closes queues of keys only;
    it adds no member; it leaves identities alone and moves queue flags
    only from open to closed. *)
Lemma relay_frame m rd keys w :
  (∀ c m', Delivered c m' ∈ log (relay m rd keys w) → c ∈ keys ∧ m' = m)
  ∧ (∀ c, Closed c ∈ log (relay m rd keys w) → c ∈ keys)
  ∧ dom (clients (world (relay m rd keys w))) ⊆ dom (clients w)
  ∧ (∀ c, identity (world (relay m rd keys w)) c = identity w c)
  ∧ (∀ c, flags_step (flags w c) (flags (world (relay m rd keys w)) c)).
Proof.
  revert w. induction keys as [|conn rest IH]; intros w; simpl.
  { split_and!; [intros ?? H; by apply elem_of_nil in H
                |intros ? H; by apply elem_of_nil in H|done|done|by left]. }
  assert (Hstop : ∀ st, let o := mkOutcome st w [] in
            (∀ c m', Delivered c m' ∈ log o → c ∈ conn :: rest ∧ m' = m)
            ∧ (∀ c, Closed c ∈ log o → c ∈ conn :: rest)
            ∧ dom (clients (world o)) ⊆ dom (clients w)
            ∧ (∀ c, identity (world o) c = identity w c)
            ∧ (∀ c, flags_step (flags w c) (flags (world o) c))).
  { intros st. simpl.
    split_and!; [intros ?? H; by apply elem_of_nil in H
                |intros ? H; by apply elem_of_nil in H|done|done|by left]. }
  destruct (queue w conn) as [ch|] eqn:Hq; [|apply Hstop].
  destruct (chansend ch (rd conn) m) as [ch'| |] eqn:Hs; [| |apply Hstop].
  - destruct (chansend_ok_flags _ _ _ _ Hs) as [Hc Hk].
    destruct (IH (set_queue conn ch' w)) as (H1 & H2 & H3 & H4 & H5). simpl.
    split_and!.
    + intros c m' [E|H]%elem_of_cons; [injection E as -> ->; split; [by left|done]|].
      destruct (H1 _ _ H). split; [by right|done].
    + intros c [E|H]%elem_of_cons; [done|]. right. by apply H2.
    + done.
    + intros c. by rewrite H4, identity_set_queue.
    + intros c. specialize (H5 c).
      by rewrite (flags_set_queue_keep _ _ _ ch) in H5.
  - destruct (closechan ch) as [ch'|] eqn:Hcl; [|apply Hstop].
    destruct (closechan_Some _ _ Hcl) as [Hc ->].
    match goal with |- context [relay m rd rest ?w'] =>
      destruct (IH w') as (H1 & H2 & H3 & H4 & H5) end. simpl.
    split_and!.
    + intros c m' [E|H]%elem_of_cons; [done|].
      destruct (H1 _ _ H). split; [by right|done].
    + intros c [E|H]%elem_of_cons; [injection E as ->; by left|]. right. by apply H2.
    + simpl in H3. rewrite dom_delete_L in H3. set_solver.
    + intros c. rewrite H4. exact (identity_set_queue _ _ _ _).
    + intros c. eapply flags_step_trans; [|apply H5].
      rewrite flags_set_clients. destruct (decide (conn = c)) as [<-|Hne].
      * right. exists (cap ch). rewrite (flags_set_queue_eq _ _ ch) by done.
        unfold flags. rewrite Hq. simpl. by rewrite Hc.
      * left. by apply flags_set_queue_ne.
Qed.

(** One event, whatever the world: identities stay, queue flags move only
    from open to closed, and members are added by Register only. *)
Lemma step_frame w ev s :
  (∀ c, identity (world (step w ev s)) c = identity w c)
  ∧ (∀ c, flags_step (flags w c) (flags (world (step w ev s)) c))
  ∧ live (world (step w ev s)) ⊆ live w ∪ registered_by ev.
Proof.
  destruct ev as [conn|conn|m]; simpl.
  - unfold on_register.
    match goal with |- context [send ?m ?ig ?rd ?ks ?w'] =>
      destruct (send_frame m ig rd ks w') as (H1 & H2 & _) end.
    split_and!.
    + intros c. by rewrite send_identity.
    + intros c. left. by rewrite H2.
    + unfold live. rewrite H1. simpl. rewrite dom_insert_L. set_solver.
  - unfold on_unregister. destruct (clients w !! conn) eqn:Hm;
      [|split_and!; [done|by left|set_solver]].
    destruct (queue w conn) as [ch|] eqn:Hq;
      [|split_and!; [done|by left|set_solver]].
    destruct (closechan ch) as [ch'|] eqn:Hcl;
      [|split_and!; [done|by left|set_solver]].
    destruct (closechan_Some _ _ Hcl) as [Hc ->]. simpl.
    match goal with |- context [send ?m ?ig ?rd ?ks ?w'] =>
      destruct (send_frame m ig rd ks w') as (H1 & H2 & _) end.
    split_and!.
    + intros c. rewrite send_identity. exact (identity_set_queue _ _ _ _).
    + intros c. rewrite H2, flags_set_clients.
      destruct (decide (conn = c)) as [<-|Hne].
      * right. exists (cap ch). rewrite (flags_set_queue_eq _ _ ch) by done.
        unfold flags. rewrite Hq. simpl. by rewrite Hc.
      * left. by apply flags_set_queue_ne.
    + unfold live. rewrite H1. simpl. rewrite dom_delete_L. set_solver.
  - unfold on_broadcast.
    destruct (relay_frame m (ready s) (order s) w) as (_ & _ & H3 & H4 & H5).
    split_and!; [done..|]. unfold live. set_solver.
Qed.

Lemma flags_step_closed w w' c :
  flags_step (flags w c) (flags w' c) → is_closed w c → is_closed w' c.
Proof.
  intros [E|(n & E1 & E2)] Hc; apply is_closed_flags.
  - rewrite E. by apply is_closed_flags.
  - by eexists.
Qed.

End frames.

(** ** Who receives what *)
Section receivers.
Import ClientManager.

Lemma deliveries_to_app c l1 l2 :
  deliveries_to c (l1 ++ l2) = deliveries_to c l1 ++ deliveries_to c l2.
Proof. unfold deliveries_to. apply omap_app. Qed.


Lemma deliveries_fmap c m (l : list ptr) :
  NoDup l →
  deliveries_to c ((fun c' => Delivered c' m) <$> l)
  = if bool_decide (c ∈ l) then [m] else [].
Proof.
  induction l as [|k l IH]; intros Hnd; [done|].
  apply NoDup_cons in Hnd as [Hk Hnd].
  rewrite fmap_cons, deliveries_to_cons, (IH Hnd).
  destruct (decide (c = k)) as [->|Hne].
  - rewrite decide_True by done.
    rewrite (bool_decide_eq_true_2 (k ∈ k :: l)) by (by left).
    by rewrite (bool_decide_eq_false_2 (k ∈ l)).
  - rewrite decide_False by done. by rewrite elem_cons_ne.
Qed.

Lemma deliveries_none c l :
  (∀ m, Delivered c m ∉ l) → deliveries_to c l = [].
Proof.
  induction l as [|e l IH]; intros H; [done|].
  rewrite deliveries_to_cons. destruct e as [c' m|c'].
  - destruct (decide (c' = c)) as [->|Hne].
    + destruct (H m). by left.
    + apply IH. intros m' Hm. apply (H m'). by right.
  - apply IH. intros m' Hm. apply (H m'). by right.
Qed.

(** What one event sends and closes, for any world. *)
Lemma step_log w ev s :
  sched_ok w ev s →
  (∀ c m, Delivered c m ∈ log (step w ev s) →
          c ∈ live w ∧ originator ev ≠ Some c ∧ m = event_message ev)
  ∧ (∀ c, Closed c ∈ log (step w ev s) → c ∈ live w).
Proof.
  intros Hsc. destruct ev as [conn|conn|m]; simpl.
  - unfold on_register.
    match goal with |- context [send ?m ?ig ?rd ?ks ?w'] =>
      destruct (send_frame m ig rd ks w') as (_ & _ & H3) end.
    split.
    + intros c m H. destruct (H3 _ H) as (c' & E & Hc & Hne).
      injection E as -> ->. apply (sched_ok_elem _ _ _ _ Hsc) in Hc. simpl in Hc.
      split_and!; [unfold live; set_solver|congruence|done].
    + intros c H. by destruct (H3 _ H) as (c' & E & _).
  - unfold on_unregister. destruct (clients w !! conn) eqn:Hm.
    2:{ split; [intros ?? H|intros ? H]; by apply elem_of_nil in H. }
    destruct (queue w conn) as [ch|].
    2:{ split; [intros ?? H|intros ? H]; by apply elem_of_nil in H. }
    destruct (closechan ch) as [ch'|].
    2:{ split; [intros ?? H|intros ? H]; by apply elem_of_nil in H. }
    simpl.
    match goal with |- context [send ?m ?ig ?rd ?ks ?w'] =>
      destruct (send_frame m ig rd ks w') as (_ & _ & H3) end.
    split.
    + intros c m [E|H]%elem_of_cons; [done|].
      destruct (H3 _ H) as (c' & E & Hc & Hne).
      injection E as -> ->. apply (sched_ok_elem _ _ _ _ Hsc) in Hc. simpl in Hc.
      split_and!; [unfold live; set_solver|congruence|done].
    + intros c [E|H]%elem_of_cons.
      * injection E as ->. unfold live. apply elem_of_dom. by eexists.
      * by destruct (H3 _ H) as (c' & E & _).
  - unfold on_broadcast.
    destruct (relay_frame m (ready s) (order s) w) as (H1 & H2 & _).
    split.
    + intros c m' H. destruct (H1 _ _ H) as [Hc ->].
      apply (sched_ok_elem _ _ _ _ Hsc) in Hc. by split_and!.
    + intros c H. apply H2 in H. by apply (sched_ok_elem _ _ _ _ Hsc) in H.
Qed.

Lemma registered_cons ev s evs :
  registered ((ev, s) :: evs) = registered_by ev ∪ registered evs.
Proof. done. Qed.

End receivers.

(** X1: whatever the state of the world, processing an event leaves the
    identity and the socket of every client as they were, never changes
    the capacity of a queue, and never reopens a closed queue. *)
Theorem hub_writes_only_queue_state w ev s c :
  identity (world (ClientManager.step w ev s)) c = identity w c
  ∧ snd <$> flags (world (ClientManager.step w ev s)) c = snd <$> flags w c
  ∧ (is_closed w c → is_closed (world (ClientManager.step w ev s)) c).
Proof.
  destruct (step_frame w ev s) as (H1 & H2 & _). split_and!; [done| |].
  - destruct (H2 c) as [->|(n & -> & ->)]; done.
  - by apply flags_step_closed.
Qed.

(** X1 on the session: B was evicted by a broadcast, then C registers
    again. *)
Lemma hub_writes_only_queue_state_witness :
  let w := world (ClientManager.step Session.world_abc (Broadcast "x")
                    (Session.all_but Session.B [Session.C; Session.B; Session.A])) in
  let o := ClientManager.step w (Register Session.C)
             (Session.all_ready [Session.C; Session.A]) in
  identity (world o) Session.B = Some ("b-id", 11)
  ∧ is_closed (world o) Session.B.
Proof.
  intros w o.
  destruct (hub_writes_only_queue_state w (Register Session.C)
              (Session.all_ready [Session.C; Session.A]) Session.B) as (H1 & _ & H3).
  split; [unfold o; rewrite H1; vm_compute; reflexivity|].
  unfold o. apply H3. Session.crunch.
Defined.

(** X2: a connection enters the live set through its own Register event
    only: after any event, a member was a member before or is the
    connection that the event registers. *)
Theorem members_only_by_register w ev s c :
  c ∈ live (world (ClientManager.step w ev s)) → c ∈ live w ∨ ev = Register c.
Proof.
  intros H. destruct (step_frame w ev s) as (_ & _ & H3).
  apply H3 in H. apply elem_of_union in H as [H|H]; [by left|right].
  destruct ev; simpl in H; [|by apply not_elem_of_empty in H..].
  by apply elem_of_singleton in H as ->.
Qed.

Lemma members_only_by_register_witness :
  Session.C ∈ live (world (ClientManager.step Session.world_abc (Unregister Session.B)
                             (Session.all_ready [Session.C; Session.A])))
  ∧ (Session.C ∈ live Session.world_abc
     ∨ Unregister Session.B = Register Session.C).
Proof.
  assert (H : Session.C ∈ live (world (ClientManager.step Session.world_abc
                (Unregister Session.B) (Session.all_ready [Session.C; Session.A])))).
  { vm_compute. reflexivity. }
  split; [exact H|]. exact (members_only_by_register _ _ _ _ H).
Defined.

(** X3: in a run whose schedules yield the keys of the map, every message
    that the control loop delivers is the message of one of the events --
    the notice of a Register or Unregister, or the payload of a Broadcast,
    unchanged -- and is not delivered to the connection a notice is about;
    the receiver was a member at the start or was registered in the run. *)
Theorem deliveries_come_from_events w evs c m :
  run_ok w evs →
  Delivered c m ∈ log (ClientManager.start w evs) →
  (∃ ev s, (ev, s) ∈ evs ∧ m = event_message ev ∧ originator ev ≠ Some c)
  ∧ c ∈ live w ∪ registered evs.
Proof.
  revert w. induction evs as [|[ev s] rest IH]; intros w Hok H; simpl in H.
  { by apply elem_of_nil in H. }
  destruct Hok as (_ & Hsc & Hrest).
  destruct (step_log w ev s Hsc) as [Hd _].
  destruct (step_frame w ev s) as (_ & _ & Hl).
  rewrite registered_cons.
  destruct (status (ClientManager.step w ev s)) eqn:E; simpl in H.
  - apply elem_of_app in H as [H|H].
    + destruct (Hd _ _ H) as (H1 & H2 & H3).
      split; [exists ev, s; split_and!; [by left|done..]|set_solver].
    + destruct (IH _ (Hrest eq_refl) H) as ((ev' & s' & Hin & H2 & H3) & H4).
      split; [exists ev', s'; split_and!; [by right|done..]|set_solver].
  - destruct (Hd _ _ H) as (H1 & H2 & H3).
    split; [exists ev, s; split_and!; [by left|done..]|set_solver].
  - destruct (Hd _ _ H) as (H1 & H2 & H3).
    split; [exists ev, s; split_and!; [by left|done..]|set_solver].
Qed.

Lemma deliveries_come_from_events_witness :
  let evs := Session.register_abc
             ++ [(Broadcast "x", Session.all_ready [Session.C; Session.B; Session.A])] in
  (∃ ev s, (ev, s) ∈ evs ∧ "x" = event_message ev ∧ originator ev ≠ Some Session.A)
  ∧ Session.A ∈ live (manager Session.heap_abc) ∪ registered evs.
Proof.
  intros evs.
  apply (deliveries_come_from_events (manager Session.heap_abc) evs Session.A "x").
  - check_run.
  - refine (bool_decide_unpack _ _). vm_compute. exact I.
Defined.

(** ** Notices *)
Section notices.
Import ClientManager.

(** The unregistration of a member whose notices are all taken. *)
Lemma unregister_done w conn s ch :
  conn ∈ live w → queue w conn = Some ch → closed ch = false →
  (∀ c, c ∈ order s → c ≠ conn → is_open w c ∧ ready s c = true) →
  step w (Unregister conn) s
  = mkOutcome Done
      (set_clients (delete conn (clients w))
         (set_queue conn (mkChan (cap ch) (buf ch) true) w))
      (Closed conn
       :: ((fun c => Delivered c (event_message (Unregister conn)))
             <$> filter (fun c => c ≠ conn) (order s))).
Proof.
  unfold live. intros [b Hb]%elem_of_dom Hq Hc H. simpl. unfold on_unregister.
  rewrite Hb, Hq, (closechan_open _ Hc). simpl.
  rewrite send_done; [done|].
  intros c Hin Hne. destruct (H c Hin Hne) as [Ho Hr]. split; [|done].
  apply is_open_flags. rewrite flags_set_clients, flags_set_queue_ne by done.
  by apply is_open_flags.
Qed.

Lemma others_in_order w ev conn s c :
  originator ev = Some conn → sched_ok w ev s →
  c ∈ filter (fun c => c ≠ conn) (order s) ↔ c ∈ live w ∧ c ≠ conn.
Proof.
  intros Ho Hsc. rewrite list_elem_of_filter, (sched_ok_elem _ _ _ _ Hsc).
  unfold live. destruct ev; simplify_eq/=; set_solver.
Qed.

(** A fan-out in which every key takes the message. *)
Lemma relay_all_ready m rd keys w :
  (∀ c, c ∈ keys → is_open w c ∧ rd c = true) →
  relay m rd keys w = mkOutcome Done w ((fun c => Delivered c m) <$> keys).
Proof.
  induction keys as [|conn rest IH]; intros H; simpl; [done|].
  destruct (H conn) as [(ch & Hq & Hc) Hr]; [by left|].
  rewrite Hq, (chansend_open _ _ _ Hc), Hr, (set_queue_same _ _ _ Hq).
  rewrite IH; [done|]. intros c Hc'. apply H. by right.
Qed.



End notices.

(** X4: when a connection registers and the write pumps of the other
    members take the notice, the event is processed to its end, the live
    set gains the connection, no client struct changes, and the
    connection-joined notice is delivered exactly once to every member
    other than the connection itself and to nobody else. *)
Theorem join_notice_reaches_the_others w conn s :
  members_open w → ClientManager.sched_ok w (Register conn) s →
  (∀ c, c ∈ live w → c ≠ conn → ready s c = true) →
  status (ClientManager.step w (Register conn) s) = Done
  ∧ live (world (ClientManager.step w (Register conn) s)) = {[conn]} ∪ live w
  ∧ heap (world (ClientManager.step w (Register conn) s)) = heap w
  ∧ (∀ c, deliveries_to c (log (ClientManager.step w (Register conn) s))
          = if bool_decide (c ∈ live w ∧ c ≠ conn)
            then [event_message (Register conn)] else []).
Proof.
  intros Hm Hsc Hrd.
  rewrite register_done.
  2:{ intros c Hc Hne. apply (sched_ok_elem _ _ _ _ Hsc) in Hc. simpl in Hc.
      assert (c ∈ live w) by (unfold live; set_solver). split; [by apply Hm|by apply Hrd]. }
  simpl. split_and!; [done|unfold live; simpl; by rewrite dom_insert_L|done|].
  intros c. rewrite deliveries_fmap
    by (apply NoDup_filter; by eapply sched_ok_NoDup).
  by rewrite (bool_decide_ext _ _ (others_in_order w (Register conn) conn s c eq_refl Hsc)).
Qed.

(** X4 on the session: C registers after A and B. *)
Lemma join_notice_reaches_the_others_witness :
  let w := world (ClientManager.start (manager Session.heap_abc)
                    [ (Register Session.A, Session.all_ready [Session.A]);
                      (Register Session.B, Session.all_ready [Session.B; Session.A]) ]) in
  let o := ClientManager.step w (Register Session.C)
             (Session.all_ready [Session.C; Session.B; Session.A]) in
  status o = Done
  ∧ deliveries_to Session.A (log o) = [event_message (Register Session.C)]
  ∧ deliveries_to Session.C (log o) = [].
Proof.
  intros w o.
  destruct (join_notice_reaches_the_others w Session.C
              (Session.all_ready [Session.C; Session.B; Session.A])) as (H1 & _ & _ & H4).
  - apply session_run_open. check_run.
  - vm_compute. reflexivity.
  - done.
  - split_and!; [done|unfold o; rewrite H4; vm_compute; reflexivity..].
Defined.

(** X5: when a member unregisters and the write pumps of the remaining
    members take the notice, the event is processed to its end: the member
    leaves the live set, its queue is closed, once, and the
    connection-left notice is delivered exactly once to every remaining
    member and to nobody else. *)
Theorem leave_notice_reaches_the_rest w conn s :
  members_open w → conn ∈ live w → ClientManager.sched_ok w (Unregister conn) s →
  (∀ c, c ∈ live w → c ≠ conn → ready s c = true) →
  status (ClientManager.step w (Unregister conn) s) = Done
  ∧ live (world (ClientManager.step w (Unregister conn) s)) = live w ∖ {[conn]}
  ∧ is_closed (world (ClientManager.step w (Unregister conn) s)) conn
  ∧ closes_of conn (log (ClientManager.step w (Unregister conn) s)) = 1
  ∧ (∀ c, deliveries_to c (log (ClientManager.step w (Unregister conn) s))
          = if bool_decide (c ∈ live w ∧ c ≠ conn)
            then [event_message (Unregister conn)] else []).
Proof.
  intros Hm Hin Hsc Hrd.
  destruct (unregister_member w conn s Hin (Hm _ Hin)) as (H1 & H2 & _ & H4 & _).
  destruct (Hm _ Hin) as (ch & Hq & Hc).
  assert (Hall : ∀ c, c ∈ order s → c ≠ conn → is_open w c ∧ ready s c = true).
  { intros c Hc' Hne. apply (sched_ok_elem _ _ _ _ Hsc) in Hc'. simpl in Hc'.
    assert (c ∈ live w) by (unfold live; set_solver).
    split; [by apply Hm|by apply Hrd]. }
  pose proof (unregister_done w conn s ch Hin Hq Hc Hall) as E.
  rewrite E in *. clear E.
  split_and!; [done| |done|done|].
  - unfold live. simpl. by rewrite dom_delete_L.
  - intros c. simpl log. rewrite deliveries_to_cons.
    rewrite deliveries_fmap by (apply NoDup_filter; by eapply sched_ok_NoDup).
    by rewrite (bool_decide_ext _ _ (others_in_order w (Unregister conn) conn s c eq_refl Hsc)).
Qed.

(** X5 on the session: B unregisters. *)
Lemma leave_notice_reaches_the_rest_witness :
  let o := ClientManager.step Session.world_abc (Unregister Session.B)
             (Session.all_ready [Session.C; Session.A]) in
  status o = Done ∧ is_closed (world o) Session.B
  ∧ deliveries_to Session.A (log o) = [event_message (Unregister Session.B)]
  ∧ deliveries_to Session.B (log o) = [].
Proof.
  intros o.
  destruct (leave_notice_reaches_the_rest Session.world_abc Session.B
              (Session.all_ready [Session.C; Session.A])) as (H1 & _ & H3 & _ & H5).
  - apply session_world_open.
  - vm_compute. reflexivity.
  - vm_compute. reflexivity.
  - done.
  - split_and!; [done|done|unfold o; rewrite H5; vm_compute; reflexivity..].
Defined.

(** ** Departures *)

(** X6: the two Unregister events that a failing inbound pump sends for
    its connection have the effect of one: when the remaining members take
    the notice, both events are processed to their end, the queue of the
    connection is closed once in all, and every remaining member gets the
    connection-left notice once, not twice. *)
Theorem duplicate_unregister_counts_once w conn s s' :
  members_open w → conn ∈ live w → ClientManager.sched_ok w (Unregister conn) s →
  (∀ c, c ∈ live w → c ≠ conn → ready s c = true) →
  status (ClientManager.start w [(Unregister conn, s); (Unregister conn, s')]) = Done
  ∧ world (ClientManager.start w [(Unregister conn, s); (Unregister conn, s')])
    = world (ClientManager.step w (Unregister conn) s)
  ∧ closes_of conn
      (log (ClientManager.start w [(Unregister conn, s); (Unregister conn, s')])) = 1
  ∧ (∀ c, deliveries_to c
            (log (ClientManager.start w [(Unregister conn, s); (Unregister conn, s')]))
          = if bool_decide (c ∈ live w ∧ c ≠ conn)
            then [event_message (Unregister conn)] else []).
Proof.
  intros Hm Hin Hsc Hrd.
  destruct (unregister_member w conn s Hin (Hm _ Hin)) as (H1 & _).
  assert (Hout : conn ∉ live (world (ClientManager.step w (Unregister conn) s))).
  { unfold live. rewrite H1, dom_delete_L. set_solver. }
  assert (Hall : ∀ c, c ∈ order s → c ≠ conn → is_open w c ∧ ready s c = true).
  { intros c Hc' Hne. apply (sched_ok_elem _ _ _ _ Hsc) in Hc'. simpl in Hc'.
    assert (c ∈ live w) by (unfold live; set_solver).
    split; [by apply Hm|by apply Hrd]. }
  destruct (Hm _ Hin) as (ch & Hq & Hc).
  pose proof (unregister_done w conn s ch Hin Hq Hc Hall) as E.
  rewrite E in Hout |- *.
  rewrite (start_cons_done _ _ _ _ _ _ E).
  rewrite (start_cons_done _ _ _ _ _ _ (unregister_absent _ _ s' Hout)).
  cbn [ClientManager.start status world log]. rewrite !app_nil_r.
  split_and!; [done|done| |].
  - rewrite closes_of_cons_eq. f_equal. apply closes_of_none.
    intros (c & Ec & _)%list_elem_of_fmap. done.
  - intros c. rewrite deliveries_to_cons.
    rewrite deliveries_fmap by (apply NoDup_filter; by eapply sched_ok_NoDup).
    by rewrite (bool_decide_ext _ _ (others_in_order w (Unregister conn) conn s c eq_refl Hsc)).
Qed.

(** X6 on the session: the inbound pump of B fails; the control loop gets
    the two events that the pump sends. *)
Lemma duplicate_unregister_counts_once_witness :
  let evs := (fun a => (Unregister Session.B, Session.all_ready [Session.C; Session.A]))
               <$> filter (fun a => a = ToUnregister Session.B)
                     (Client.read Session.B (Client.mk "b-id" 11 (make_chan 0))
                        [inr "EOF"]).1 in
  let o := ClientManager.start Session.world_abc evs in
  length evs = 2 ∧ status o = Done ∧ closes_of Session.B (log o) = 1
  ∧ deliveries_to Session.A (log o) = [event_message (Unregister Session.B)].
Proof.
  intros evs o.
  destruct (duplicate_unregister_counts_once Session.world_abc Session.B
              (Session.all_ready [Session.C; Session.A])
              (Session.all_ready [Session.C; Session.A])) as (H1 & _ & H3 & H4).
  - apply session_world_open.
  - vm_compute. reflexivity.
  - vm_compute. reflexivity.
  - done.
  - split_and!; [reflexivity|exact H1|exact H3|].
    unfold o. change evs with [(Unregister Session.B, Session.all_ready [Session.C; Session.A]);
                               (Unregister Session.B, Session.all_ready [Session.C; Session.A])].
    rewrite H4. vm_compute. reflexivity.
Defined.

(** X7: the departure of a connection that a broadcast has evicted is not
    announced.  Once the fan-out loop has closed and removed a saturated
    member, an Unregister event for it (the one its inbound pump sends when
    its read fails) changes nothing and delivers nothing: the remaining
    members get no connection-left notice for it. *)
Theorem evicted_connection_is_not_announced w m s r s' :
  members_open w → ClientManager.sched_ok w (Broadcast m) s →
  r ∈ live w → accepts w (ready s) r = false →
  ClientManager.step (world (ClientManager.step w (Broadcast m) s)) (Unregister r) s'
  = mkOutcome Done (world (ClientManager.step w (Broadcast m) s)) [].
Proof.
  intros Hm Hsc Hr Ha. apply unregister_absent.
  destruct (broadcast_spec w m s Hm Hsc) as (_ & H2 & _).
  rewrite H2. intros [_ E]. congruence.
Qed.

Lemma evicted_connection_is_not_announced_witness :
  let w := world (ClientManager.step Session.world_abc (Broadcast "x")
                    (Session.all_but Session.B [Session.C; Session.B; Session.A])) in
  ClientManager.step w (Unregister Session.B) (Session.all_ready [Session.C; Session.A])
  = mkOutcome Done w [].
Proof.
  intros w.
  apply (evicted_connection_is_not_announced Session.world_abc "x"
           (Session.all_but Session.B [Session.C; Session.B; Session.A]) Session.B).
  - apply session_world_open.
  - vm_compute. reflexivity.
  - vm_compute. reflexivity.
  - vm_compute. reflexivity.
Defined.

(** ** Whole runs *)

(** X8: progress.  In a run that the program can produce, if every write
    pump takes what is sent to its queue, the control loop processes every
    event to its end: it neither waits in a send nor panics. *)
Theorem ready_pumps_never_stall h evs :
  run_ok (manager h) evs →
  Forall (fun e => ∀ c, ready e.2 c = true) evs →
  status (ClientManager.start (manager h) evs) = Done
  ∧ taken (manager h) evs = evs.
Proof.
  intros Hok Hrd.
  assert (Hd : status (ClientManager.start (manager h) evs) = Done).
  { apply (start_done ∅); [|done..].
    split; intros c Hc; by apply not_elem_of_empty in Hc. }
  split; [done|by apply taken_done].
Qed.

Lemma ready_pumps_never_stall_witness :
  status (ClientManager.start (manager Session.heap_abc) Session.register_abc) = Done
  ∧ taken (manager Session.heap_abc) Session.register_abc = Session.register_abc.
Proof.
  apply ready_pumps_never_stall; [apply session_register_ok|].
  repeat constructor.
Defined.



(** A run of broadcasts whose messages are all taken. *)
Lemma relay_run w (ms : list (bytes * Sched)) :
  members_open w →
  Forall (fun p => ClientManager.sched_ok w (Broadcast p.1) p.2
                   ∧ ∀ c, c ∈ live w → ready p.2 c = true) ms →
  status (ClientManager.start w ((fun p => (Broadcast p.1, p.2)) <$> ms)) = Done
  ∧ world (ClientManager.start w ((fun p => (Broadcast p.1, p.2)) <$> ms)) = w
  ∧ (∀ c, deliveries_to c
            (log (ClientManager.start w ((fun p => (Broadcast p.1, p.2)) <$> ms)))
          = if bool_decide (c ∈ live w) then ms.*1 else []).
Proof.
  intros Hm. induction ms as [|[m s] ms IH]; intros Hall.
  { simpl. split_and!; [done..|]. intros c. by case_bool_decide. }
  apply Forall_cons in Hall as [[Hsc Hrd] Hall]. simpl in Hsc, Hrd.
  destruct (IH Hall) as (IH1 & IH2 & IH3).
  rewrite fmap_cons.
  erewrite start_cons_done.
  2:{ simpl. unfold ClientManager.on_broadcast. apply relay_all_ready.
      intros c Hc. apply (sched_ok_elem _ _ _ _ Hsc) in Hc.
      split; [by apply Hm|by apply Hrd]. }
  simpl. split_and!; [done..|].
  intros c. rewrite deliveries_to_app, IH3.
  rewrite deliveries_fmap by (by eapply sched_ok_NoDup).
  rewrite (bool_decide_ext (c ∈ order s) (c ∈ live w))
    by (by rewrite (sched_ok_elem _ _ _ _ Hsc)).
  by case_bool_decide.
Qed.

(** X10: messages are relayed in the order of their Broadcast events.  When
    a sequence of Broadcast events is processed and the write pumps of all
    members take every message, the run ends with the world unchanged, and
    every member has received all the payloads, once each, in the order of
    the events; a non-member has received nothing. *)
Theorem broadcasts_arrive_in_order w (ms : list (bytes * Sched)) :
  members_open w →
  Forall (fun p => ClientManager.sched_ok w (Broadcast p.1) p.2
                   ∧ ∀ c, c ∈ live w → ready p.2 c = true) ms →
  status (ClientManager.start w ((fun p => (Broadcast p.1, p.2)) <$> ms)) = Done
  ∧ world (ClientManager.start w ((fun p => (Broadcast p.1, p.2)) <$> ms)) = w
  ∧ (∀ c, deliveries_to c
            (log (ClientManager.start w ((fun p => (Broadcast p.1, p.2)) <$> ms)))
          = if bool_decide (c ∈ live w) then ms.*1 else []).
Proof. apply relay_run. Qed.

Lemma broadcasts_arrive_in_order_witness :
  let ms := [ ("one", Session.all_ready [Session.C; Session.B; Session.A]);
              ("two", Session.all_ready [Session.C; Session.B; Session.A]);
              ("three", Session.all_ready [Session.C; Session.B; Session.A]) ] in
  let o := ClientManager.start Session.world_abc
             ((fun p => (Broadcast p.1, p.2)) <$> ms) in
  world o = Session.world_abc
  ∧ deliveries_to Session.B (log o) = ["one"; "two"; "three"].
Proof.
  intros ms o.
  destruct (broadcasts_arrive_in_order Session.world_abc ms) as (_ & H2 & H3).
  - apply session_world_open.
  - repeat constructor; vm_compute; reflexivity.
  - split; [exact H2|]. unfold o. rewrite H3. vm_compute. reflexivity.
Defined.

(** * Further properties of the codec *)

Section codec_facts.

Lemma append_cons a s t : String a s +:+ t = String a (s +:+ t).
Proof. reflexivity. Qed.

Lemma append_assoc (s t u : string) : (s +:+ t) +:+ u = s +:+ (t +:+ u).
Proof. induction s as [|a s IH]; [done|]. by rewrite !append_cons, IH. Qed.

Lemma append_cancel (s x y : string) : s +:+ x = s +:+ y → x = y.
Proof.
  induction s as [|a s IH]; [done|]. rewrite !append_cons. intros [= E]. by apply IH.
Qed.

(** The first token of an encoded ASCII text reads back as its first
    byte. *)
Lemma unescape_token b x :
  (byte_of b < 128)%N → unescape_head (token b +:+ x) = Some (b, x).
Proof.
  intros H.
  destruct b as [[] [] [] [] [] [] [] []];
    first [reflexivity | exfalso; vm_compute in H; discriminate H].
Qed.

Lemma loop_ascii_cons b s :
  (byte_of b < 128)%N →
  json.appendString_loop true 0 (String b s)
  = token b +:+ json.appendString_loop true 0 s.
Proof.
  intros H%N.ltb_lt. cbn [json.appendString_loop]. rewrite H. unfold token.
  by destruct (json.htmlSafe b).
Qed.

(** The body of an encoded ASCII text, up to the closing quote, determines
    the text and what follows the quote. *)
Lemma loop_inj s1 s2 t1 t2 :
  ascii_only s1 = true → ascii_only s2 = true →
  json.appendString_loop true 0 s1 +:+ String dq t1
  = json.appendString_loop true 0 s2 +:+ String dq t2 →
  s1 = s2 ∧ t1 = t2.
Proof.
  revert s2. induction s1 as [|a s1 IH]; intros [|b s2] H1 H2 E.
  - cbn [json.appendString_loop] in E. by injection E as ->.
  - apply andb_true_iff in H2 as [Hb%N.ltb_lt H2].
    rewrite (loop_ascii_cons _ _ Hb), append_assoc in E.
    apply (f_equal unescape_head) in E. by rewrite unescape_token in E.
  - apply andb_true_iff in H1 as [Ha%N.ltb_lt H1].
    rewrite (loop_ascii_cons _ _ Ha), append_assoc in E.
    apply (f_equal unescape_head) in E. by rewrite unescape_token in E.
  - apply andb_true_iff in H1 as [Ha%N.ltb_lt H1].
    apply andb_true_iff in H2 as [Hb%N.ltb_lt H2].
    rewrite (loop_ascii_cons _ _ Ha), (loop_ascii_cons _ _ Hb), !append_assoc in E.
    apply (f_equal unescape_head) in E. rewrite !unescape_token in E by done.
    injection E as -> E. by destruct (IH _ H1 H2 E) as [-> ->].
Qed.

Lemma appendString_then s t :
  json.appendString s +:+ t
  = String dq (json.appendString_loop true 0 s +:+ String dq t).
Proof. unfold json.appendString. by rewrite append_cons, append_assoc. Qed.

End codec_facts.

(** X11: on ASCII identities and ASCII texts the envelope of a relayed
    message loses nothing: two payloads built by the inbound pump are equal
    only if they have the same sender and the same text. *)
Theorem relayed_payload_determines_sender_and_text id1 id2 m1 m2 :
  ascii_only id1 = true → ascii_only id2 = true →
  ascii_only m1 = true → ascii_only m2 = true →
  Marshal (mkMessage id1 EmptyString m1) = Marshal (mkMessage id2 EmptyString m2) →
  id1 = id2 ∧ m1 = m2.
Proof.
  intros Hi1 Hi2 Hm1 Hm2 E. rewrite !Marshal_no_recipient in E.
  apply (append_cancel "{") in E.
  apply (append_cancel (json.appendString "Sender")) in E.
  apply (append_cancel ":") in E.
  rewrite !appendString_then in E. injection E as E.
  destruct (loop_inj _ _ _ _ Hi1 Hi2 E) as [-> E']. split; [done|].
  destruct (decide (m1 = EmptyString)) as [->|N1],
           (decide (m2 = EmptyString)) as [->|N2]; [done|discriminate E'..|].
  change (("," +:+ quoted "content" +:+ ":") +:+ (json.appendString m1 +:+ "}")
          = ("," +:+ quoted "content" +:+ ":") +:+ (json.appendString m2 +:+ "}")) in E'.
  apply append_cancel in E'.
  rewrite !appendString_then in E'. injection E' as E'.
  by destruct (loop_inj _ _ _ _ Hm1 Hm2 E') as [-> _].
Qed.

Lemma relayed_payload_determines_sender_and_text_witness :
  Marshal (mkMessage "a-id" EmptyString "hi <b>") ≠ Marshal (mkMessage "a-id" EmptyString "hi").
Proof.
  intros E.
  destruct (relayed_payload_determines_sender_and_text "a-id" "a-id" "hi <b>" "hi")
    as [_ H]; [reflexivity..|exact E|discriminate H].
Defined.

(** X12: bytes that are not UTF-8 text are not preserved.  A message that
    consists of one byte of 0x80 or above is relayed with the replacement
    escape as its content, whatever the byte was. *)
Theorem lone_high_byte_is_replaced b :
  (128 ≤ byte_of b)%N →
  json.appendString (String b EmptyString) = quoted ("\u" +:+ "fffd").
Proof.
  intros H.
  destruct b as [[] [] [] [] [] [] [] []];
    first [reflexivity | exfalso; vm_compute in H; by apply H].
Qed.

Lemma lone_high_byte_is_replaced_witness :
  Marshal (mkMessage "a-id" EmptyString (String (ascii_of_nat 200) EmptyString))
  = Marshal (mkMessage "a-id" EmptyString (String (ascii_of_nat 255) EmptyString)).
Proof.
  rewrite !Marshal_no_recipient.
  rewrite (lone_high_byte_is_replaced (ascii_of_nat 200)) by (vm_compute; discriminate).
  rewrite (lone_high_byte_is_replaced (ascii_of_nat 255)) by (vm_compute; discriminate).
  reflexivity.
Defined.

(** * Further properties of the pumps and of the entry point *)

Section pump_shapes.

Lemma read_loop_shape self cli reads :
  ((Client.read_loop self cli reads).2 = true ↔ ∃ err, inr err ∈ reads)
  ∧ ((Client.read_loop self cli reads).2 = false →
     (Client.read_loop self cli reads).1
     = (fun m => ToBroadcast (Marshal (mkMessage (Client.id cli) EmptyString m)))
         <$> forwarded reads)
  ∧ Forall (fun a => is_write a = false) (Client.read_loop self cli reads).1.
Proof.
  induction reads as [|[m|err] rest (IH1 & IH2 & IH3)]; cbn [Client.read_loop].
  - split_and!; [|done|constructor].
    split; [done|]. intros [err H]. by apply elem_of_nil in H.
  - destruct (Client.read_loop self cli rest) as [acts broke]. simpl in *.
    split_and!.
    + rewrite IH1. split; intros [err H]; exists err.
      * by right.
      * apply elem_of_cons in H as [H|H]; [done|done].
    + intros H. by rewrite (IH2 H).
    + by constructor.
  - simpl. split_and!; [|done|by repeat constructor].
    split; [|done]. intros _. exists err. by left.
Qed.

Lemma no_close (acts : list Action) :
  Forall (fun a => is_close a = false) acts →
  filter (fun a => is_close a = true) acts = [].
Proof.
  induction 1 as [|a l Ha _ IH]; [done|].
  rewrite filter_cons_False by congruence. done.
Qed.

Lemma text_writes_app l1 l2 : text_writes (l1 ++ l2) = text_writes l1 ++ text_writes l2.
Proof. unfold text_writes. apply omap_app. Qed.

Lemma write_loop_shape cli queue :
  Forall (fun a => to_hub a = false) (Client.write_loop cli queue).1
  ∧ Forall (fun a => is_close a = false) (Client.write_loop cli queue).1
  ∧ text_writes (Client.write_loop cli queue).1 `prefix_of` queue.*1
  ∧ ((Client.write_loop cli queue).2 = false →
     text_writes (Client.write_loop cli queue).1 = queue.*1).
Proof.
  induction queue as [|[m [err|]] rest (IH1 & IH2 & IH3 & IH4)]; cbn [Client.write_loop].
  - split_and!; [constructor|constructor|done|done].
  - simpl. split_and!; [by repeat constructor..| |done].
    exists rest.*1. done.
  - destruct (Client.write_loop cli rest) as [acts broke]. simpl in *.
    split_and!; [by constructor|by constructor| |].
    + unfold text_writes. simpl. by apply prefix_cons.
    + intros H. unfold text_writes. simpl. f_equal. by apply IH4.
Qed.

End pump_shapes.

(** X13: the inbound pump leaves its loop on a read error and on nothing
    else.  It has exited exactly when one of the reads failed; while no
    read has failed it has done nothing but hand over one Broadcast per
    message read, in order -- no Unregister and no close of the socket --
    and it never writes to the socket. *)
Theorem read_leaves_only_on_error self cli reads :
  ((Client.read self cli reads).2 = Exited ↔ ∃ err, inr err ∈ reads)
  ∧ ((Client.read self cli reads).2 = Parked →
     (Client.read self cli reads).1
     = (fun m => ToBroadcast (Marshal (mkMessage (Client.id cli) EmptyString m)))
         <$> forwarded reads)
  ∧ Forall (fun a => is_write a = false) (Client.read self cli reads).1.
Proof.
  destruct (read_loop_shape self cli reads) as (H1 & H2 & H3).
  unfold Client.read.
  destruct (Client.read_loop self cli reads) as [acts [|]]; simpl in *.
  - split_and!; [by rewrite <- H1|done|].
    apply Forall_app. split; [done|by repeat constructor].
  - split_and!; [|by intros _; apply H2|done].
    rewrite <- H1. split; done.
Qed.

Lemma read_leaves_only_on_error_witness :
  Client.read Session.A (Client.mk "a-id" 10 (make_chan 0)) [inl "one"; inl "two"]
  = ([ ToBroadcast (Marshal (mkMessage "a-id" EmptyString "one"));
       ToBroadcast (Marshal (mkMessage "a-id" EmptyString "two")) ], Parked).
Proof.
  assert (E : (Client.read Session.A (Client.mk "a-id" 10 (make_chan 0))
                 [inl "one"; inl "two"]).2 = Parked) by reflexivity.
  destruct (read_leaves_only_on_error Session.A (Client.mk "a-id" 10 (make_chan 0))
              [inl "one"; inl "two"]) as (_ & H & _).
  specialize (H E).
  destruct (Client.read Session.A (Client.mk "a-id" 10 (make_chan 0))
              [inl "one"; inl "two"]) as [acts st].
  simpl in *. by rewrite H, E.
Defined.

(** X14: when every write succeeds, the outbound pump writes the messages
    of its queue to the socket as text messages, in order; if the queue is
    then closed it writes the close message, closes the socket and exits,
    and otherwise it stays parked on the queue with the socket open. *)
Theorem write_drains_in_order cli (msgs : list bytes) closed_after :
  Client.write cli ((fun m => (m, None)) <$> msgs) closed_after
  = if closed_after
    then ((WriteMessage (Client.socket cli) TextMessage <$> msgs)
          ++ [ WriteMessage (Client.socket cli) CloseMessage EmptyString;
               SocketClose (Client.socket cli) ], Exited)
    else (WriteMessage (Client.socket cli) TextMessage <$> msgs, Parked).
Proof.
  assert (E : Client.write_loop cli ((fun m => (m, None)) <$> msgs)
              = (WriteMessage (Client.socket cli) TextMessage <$> msgs, false)).
  { induction msgs as [|m msgs IH]; [done|].
    rewrite !fmap_cons. cbn [Client.write_loop]. by rewrite IH. }
  unfold Client.write. rewrite E. by destruct closed_after.
Qed.

(** X15: whatever the queue yields and whichever writes fail, the outbound
    pump sends nothing to the control loop; the text messages it writes
    are an initial part of the queue, in the order of the queue; and it
    closes the socket once when it exits and not at all while it is
    parked. *)
Theorem write_keeps_to_its_socket cli queue closed_after :
  Forall (fun a => to_hub a = false) (Client.write cli queue closed_after).1
  ∧ text_writes (Client.write cli queue closed_after).1 `prefix_of` queue.*1
  ∧ length (filter (fun a => is_close a = true) (Client.write cli queue closed_after).1)
    = (if (Client.write cli queue closed_after).2 is Exited then 1 else 0).
Proof.
  destruct (write_loop_shape cli queue) as (H1 & H2 & H3 & _).
  unfold Client.write.
  destruct (Client.write_loop cli queue) as [acts broke]. simpl in *.
  assert (Hz : length (filter (fun a => is_close a = true) acts) = 0).
  { by rewrite no_close. }
  destruct (broke || closed_after); simpl.
  - split_and!.
    + apply Forall_app. split; [done|by repeat constructor].
    + rewrite text_writes_app. simpl. by rewrite app_nil_r.
    + rewrite filter_app, length_app, Hz. reflexivity.
  - by split_and!.
Qed.

(** ** The entry point *)

(** X16: a session that [wsPage] accepts is ready for the control loop.
    With the upgrade and the identity both obtained, [wsPage] allocates
    one client with the given identity and socket and an open queue of
    capacity zero, leaves every other client as it was, and sends the
    client on [register] once, before it starts the two pumps; the new
    client then meets what the control loop assumes of a Register event,
    and the members keep their open queues. *)
Theorem wsPage_hands_over_an_open_client cs h conn uuid self :
  h !! self = None → members_open (mkWorld cs h) →
  (wsPage (Some conn) (inl uuid) self h).2 = [ToRegister self; Go_read self; Go_write self]
  ∧ (wsPage (Some conn) (inl uuid) self h).1 !! self
    = Some (Client.mk uuid conn (make_chan 0))
  ∧ (∀ c, c ≠ self → (wsPage (Some conn) (inl uuid) self h).1 !! c = h !! c)
  ∧ event_ok (mkWorld cs (wsPage (Some conn) (inl uuid) self h).1) (Register self)
  ∧ members_open (mkWorld cs (wsPage (Some conn) (inl uuid) self h).1).
Proof.
  intros Hf Hm. simpl. split_and!.
  - done.
  - by rewrite lookup_insert_eq.
  - intros c Hne. by rewrite lookup_insert_ne.
  - exists (make_chan 0). unfold ClientManager.queue. simpl.
    by rewrite lookup_insert_eq.
  - intros c Hc. destruct (Hm c Hc) as (ch & Hq & Hcl).
    exists ch. split; [|done]. unfold ClientManager.queue in *. simpl in *.
    rewrite lookup_insert_ne; [done|]. intros <-. by rewrite Hf in Hq.
Qed.

(** X16 on the session: a fourth session is accepted while A, B and C are
    members; the control loop then registers it. *)
Lemma wsPage_hands_over_an_open_client_witness :
  let D : ptr := 4%positive in
  let h := (wsPage (Some 13) (inl "d-id") D (heap Session.world_abc)).1 in
  let w := mkWorld (clients Session.world_abc) h in
  event_ok w (Register D) ∧ members_open w
  ∧ status (ClientManager.step w (Register D)
              (Session.all_ready [D; Session.C; Session.B; Session.A])) = Done.
Proof.
  intros D h w.
  destruct (wsPage_hands_over_an_open_client (clients Session.world_abc)
              (heap Session.world_abc) 13 "d-id" D) as (_ & _ & _ & H4 & H5).
  - vm_compute. reflexivity.
  - apply session_world_open.
  - split_and!; [exact H4|exact H5|vm_compute; reflexivity].
Defined.

(** X17: a session that cannot be set up never reaches the control loop.
    When the upgrade fails, or the identity cannot be generated, [wsPage]
    allocates no client, sends nothing on [register], starts no pump, and
    does not close the socket -- also when it is the identity that failed
    and the socket is already upgraded. *)
Theorem wsPage_failure_stays_local upgrade newV4 self h :
  upgrade = None ∨ (∃ err, newV4 = inr err) →
  (wsPage upgrade newV4 self h).1 = h
  ∧ Forall (fun a => to_hub a = false ∧ is_close a = false
                     ∧ a ≠ Go_read self ∧ a ≠ Go_write self)
      (wsPage upgrade newV4 self h).2
  ∧ length (wsPage upgrade newV4 self h).2 = 1.
Proof.
  intros [->|[err ->]]; [|destruct upgrade]; simpl;
    (split_and!; [done|by repeat constructor|done]).
Qed.

Lemma wsPage_failure_stays_local_witness :
  wsPage (Some 13) (inr "no entropy") 4%positive Session.heap_abc
  = (Session.heap_abc, [Println "Error generating UUID: no entropy"]).
Proof.
  destruct (wsPage_failure_stays_local (Some 13) (inr "no entropy") 4%positive
              Session.heap_abc) as (H1 & _ & _); [right; by eexists|].
  reflexivity.
Defined.

(** * From the socket of one client to the queues of all *)

Section end_to_end.
Import ClientManager.

Lemma send_ext m ig rd rd' keys w :
  (∀ c, c ≠ ig → rd c = rd' c) → send m ig rd keys w = send m ig rd' keys w.
Proof.
  intros H. revert w. induction keys as [|conn rest IH]; intros w; simpl; [done|].
  destruct (decide (conn = ig)); [apply IH|].
  rewrite <- (H conn) by done. destruct (queue w conn) as [ch|]; [|done].
  destruct (chansend ch (rd conn) m); [|done..]. by rewrite IH.
Qed.

Lemma forwarded_inl (msgs : list bytes) : forwarded (inl <$> msgs) = msgs.
Proof.
  induction msgs as [|m msgs IH]; [done|].
  rewrite fmap_cons. cbn [forwarded]. by rewrite IH.
Qed.

Lemma broadcasts_fmap (f : bytes → bytes) (msgs : list bytes) :
  broadcasts ((fun m => ToBroadcast (f m)) <$> msgs) = f <$> msgs.
Proof.
  unfold broadcasts. induction msgs as [|m msgs IH]; [done|].
  rewrite !fmap_cons, <- IH. reflexivity.
Qed.

Lemma read_all_payloads self cli (msgs : list bytes) :
  broadcasts (Client.read self cli (inl <$> msgs)).1
  = (fun m => Marshal (mkMessage (Client.id cli) EmptyString m)) <$> msgs.
Proof.
  destruct (read_loop_shape self cli (inl <$> msgs)) as (H1 & H2 & _).
  unfold Client.read.
  destruct (Client.read_loop self cli (inl <$> msgs)) as [acts [|]] eqn:E; simpl in *.
  - destruct (proj1 H1 eq_refl) as [err Herr].
    apply list_elem_of_fmap in Herr as (m & Hm & _). done.
  - rewrite (H2 eq_refl), forwarded_inl.
    apply (broadcasts_fmap (fun m => Marshal (mkMessage (Client.id cli) EmptyString m))).
Qed.

End end_to_end.

(** X18: the pumps of the connection an announcement is about play no part
    in it.  The processing of a Register or Unregister event is the same
    whether or not the write pump of that connection takes messages -- in
    particular a Register is processed the same although [wsPage] starts
    the pumps of the new connection only after it has sent the event. *)
Theorem announcement_ignores_its_subject w ev conn s s' :
  originator ev = Some conn → order s = order s' →
  (∀ c, c ≠ conn → ready s c = ready s' c) →
  ClientManager.step w ev s = ClientManager.step w ev s'.
Proof.
  intros Ho Hord Hrd. destruct ev as [c|c|m]; simplify_eq/=.
  - unfold ClientManager.on_register. rewrite Hord. by apply send_ext.
  - unfold ClientManager.on_unregister. destruct (clients w !! conn); [|done].
    destruct (ClientManager.queue w conn) as [ch|]; [|done].
    destruct (closechan ch); [|done]. rewrite Hord. f_equal. by apply send_ext.
Qed.

(** X18 on the session: C registers while its own write pump is not yet
    running. *)
Lemma announcement_ignores_its_subject_witness :
  let w := world (ClientManager.start (manager Session.heap_abc)
                    [ (Register Session.A, Session.all_ready [Session.A]);
                      (Register Session.B, Session.all_ready [Session.B; Session.A]) ]) in
  ClientManager.step w (Register Session.C)
    (Session.all_but Session.C [Session.C; Session.B; Session.A])
  = ClientManager.step w (Register Session.C)
      (Session.all_ready [Session.C; Session.B; Session.A]).
Proof.
  intros w.
  apply (announcement_ignores_its_subject w (Register Session.C) Session.C);
    [reflexivity..|].
  intros c Hne. unfold Session.all_but, Session.all_ready. cbn [ready].
  apply negb_true_iff. by apply Pos.eqb_neq.
Defined.

(** X19: from one socket to every queue.  When a client sends a sequence
    of messages without a read error, and the control loop processes the
    Broadcast events of its inbound pump while the write pumps of all
    members take every message, then every member -- the sender included
    when it is one -- receives, in the order sent, the serialised
    envelopes that carry the identity of the sender and the text of each
    message; a non-member receives nothing, and the world is left as it
    was. *)
Theorem messages_reach_members_in_order w self cli (ms : list (bytes * Sched)) :
  members_open w →
  Forall (fun p => ClientManager.sched_ok w (Broadcast p.1) p.2
                   ∧ ∀ c, c ∈ live w → ready p.2 c = true) ms →
  let payloads := broadcasts (Client.read self cli (inl <$> ms.*1)).1 in
  let evs := zip_with (fun pl (p : bytes * Sched) => (Broadcast pl, p.2)) payloads ms in
  status (ClientManager.start w evs) = Done
  ∧ world (ClientManager.start w evs) = w
  ∧ (∀ c, deliveries_to c (log (ClientManager.start w evs))
          = if bool_decide (c ∈ live w)
            then (fun m => Marshal (mkMessage (Client.id cli) EmptyString m)) <$> ms.*1
            else []).
Proof.
  intros Hm Hall payloads evs.
  set (f := fun m => Marshal (mkMessage (Client.id cli) EmptyString m)).
  assert (Eevs : evs = (fun p => (Broadcast p.1, p.2))
                         <$> ((fun p : bytes * Sched => (f p.1, p.2)) <$> ms)).
  { unfold evs, payloads. rewrite read_all_payloads. fold f.
    clear. induction ms as [|[m s] ms IH]; [done|].
    rewrite !fmap_cons. simpl. by rewrite IH. }
  rewrite Eevs.
  destruct (relay_run w ((fun p : bytes * Sched => (f p.1, p.2)) <$> ms) Hm)
    as (H1 & H2 & H3).
  { apply Forall_fmap. eapply Forall_impl; [exact Hall|]. by intros [m s]. }
  split_and!; [done..|]. intros c. rewrite H3. case_bool_decide; [|done].
  rewrite <- !list_fmap_compose. by apply list_fmap_ext.
Qed.

(** X19 on the session: A sends "one" and "two". *)
Lemma messages_reach_members_in_order_witness :
  let cli := Client.mk "a-id" 10 (make_chan 0) in
  let ms := [ ("one", Session.all_ready [Session.C; Session.B; Session.A]);
              ("two", Session.all_ready [Session.C; Session.B; Session.A]) ] in
  let evs := zip_with (fun pl (p : bytes * Sched) => (Broadcast pl, p.2))
               (broadcasts (Client.read Session.A cli (inl <$> ms.*1)).1) ms in
  deliveries_to Session.C (log (ClientManager.start Session.world_abc evs))
  = [ Marshal (mkMessage "a-id" EmptyString "one");
      Marshal (mkMessage "a-id" EmptyString "two") ]
  ∧ deliveries_to Session.A (log (ClientManager.start Session.world_abc evs))
    = [ Marshal (mkMessage "a-id" EmptyString "one");
        Marshal (mkMessage "a-id" EmptyString "two") ].
Proof.
  intros cli ms evs.
  destruct (messages_reach_members_in_order Session.world_abc Session.A cli ms)
    as (_ & _ & H).
  - apply session_world_open.
  - repeat constructor; vm_compute; reflexivity.
  - split; (etrans; [apply H|vm_compute; reflexivity]).
Defined.
